(** * Drum-Machine-PRO: the soundkit manifest generator and its accessor

    A shallow embedding of [scripts/generate-manifest.js] (class
    [SoundkitScanner]), of [index.js] (class [SoundkitManager]) and of the
    state handling of the catalog page, [js/soundkit-catalog.js].
    Writing the manifest to disk, rendering into the page and audio
    playback are outside the model.

    Modelling conventions.
    - A JavaScript string is a [string]: a sequence of code units in the
      ASCII range.  [toLowerCase] and [trim] act on ASCII letters and ASCII
      white space as ECMAScript does; code units above 127 are carried
      unchanged.
    - A plain object used as a dictionary ([instruments],
      [instrumentCoverage]) and a [Map] are [gmap]s; properties inherited
      from [Object.prototype] and insertion order are outside the model.
    - [null] and [undefined] are [None].
    - A JavaScript number that holds a count is a [nat]; a percentage is an
      exact rational [Qc] (the rounding of IEEE doubles is not modelled);
      [NaN] is explicit where the code can produce it. *)

From Stdlib Require Import ZArith QArith Qcanon Ascii.
From stdpp Require Import numbers sorting gmap strings list fin_maps.

Local Open Scope Z_scope.

(** ** JavaScript string and array primitives *)

Module JS.

(** [s.length] *)
Definition length (s : string) : Z := Z.of_nat (String.length s).

(** Clamp an index into [0 .. len]. *)
Definition clamp (len i : Z) : Z := Z.min (Z.max i 0) len.

(** The relative index of [slice]: a negative index counts from the end. *)
Definition relative (len i : Z) : Z :=
  if i <? 0 then Z.max (len + i) 0 else Z.min i len.

(** [s.slice(start, end)] *)
Definition slice (s : string) (start end_ : Z) : string :=
  let len := length s in
  let from := relative len start in
  let to := relative len end_ in
  String.substring (Z.to_nat from) (Z.to_nat (Z.max (to - from) 0)) s.

(** [s.substring(start, end)]: both indices clamped, then ordered. *)
Definition substring2 (s : string) (start end_ : Z) : string :=
  let len := length s in
  let a := clamp len start in
  let b := clamp len end_ in
  let from := Z.min a b in
  let to := Z.max a b in
  String.substring (Z.to_nat from) (Z.to_nat (to - from)) s.

(** [s.substring(start)] *)
Definition substring1 (s : string) (start : Z) : string :=
  substring2 s start (length s).

(** [s.startsWith(x)] *)
Definition startsWith (s x : string) : bool := String.prefix x s.

(** [s.endsWith(x)] *)
Definition endsWith (s x : string) : bool :=
  let start := length s - length x in
  if start <? 0 then false
  else String.eqb (String.substring (Z.to_nat start) (String.length x) s) x.

(** [s.lastIndexOf(x)]: the greatest index at which [x] occurs in [s],
    or [-1]. *)
Fixpoint lastIndexOf_from (pos : nat) (s x : string) : option nat :=
  match s with
  | EmptyString => if String.prefix x s then Some pos else None
  | String _ s' =>
      match lastIndexOf_from (S pos) s' x with
      | Some i => Some i
      | None => if String.prefix x s then Some pos else None
      end
  end.

Definition lastIndexOf (s x : string) : Z :=
  match lastIndexOf_from 0 s x with
  | Some i => Z.of_nat i
  | None => -1
  end.

(** [s.trim()] *)
Fixpoint trimStart (s : string) : string :=
  match s with
  | EmptyString => EmptyString
  | String c s' => if Ascii.is_space c then trimStart s' else s
  end.

Fixpoint trimEnd (s : string) : string :=
  match s with
  | EmptyString => EmptyString
  | String c s' =>
      match trimEnd s' with
      | EmptyString => if Ascii.is_space c then EmptyString else String c EmptyString
      | t => String c t
      end
  end.

Definition trim (s : string) : string := trimEnd (trimStart s).

(** [s.toLowerCase()] *)
Definition lower_ascii (c : ascii) : ascii :=
  let n := nat_of_ascii c in
  if ((65 <=? n) && (n <=? 90))%nat then ascii_of_nat (n + 32) else c.

Fixpoint toLowerCase (s : string) : string :=
  match s with
  | EmptyString => EmptyString
  | String c s' => String (lower_ascii c) (toLowerCase s')
  end.

(** [array.includes(x)] *)
Definition includes (l : list string) (x : string) : bool :=
  bool_decide (x ∈ l).

End JS.

(** ** The scanner's configuration (the [CONFIG] object)

    [samplesDir] and [outputPath] only name places on disk and are left
    out. *)

Record Config := mkConfig {
  cfg_instruments : list string;
  fileExtension : string;
  githubPagesBaseUrl : string
}.

(** [CONFIG], with the default of [githubPagesBaseUrl] (the environment
    variable [GITHUB_PAGES_URL] unset). *)
Definition CONFIG : Config := {|
  cfg_instruments :=
    ["kick"; "snare"; "hihat"; "clap"; "crash"; "open"; "rim"; "bell"];
  fileExtension := ".wav";
  githubPagesBaseUrl := "https://casa24records.github.io/Drum-Machine-PRO"
|}.

(** ** [SoundkitScanner.parseFilename] *)

Record Parsed := mkParsed {
  soundkitName : string;
  instrument : string
}.

Definition parseFilename (config : Config) (filename : string) : option Parsed :=
  if negb (JS.endsWith filename (fileExtension config)) then None
  else
    let nameWithoutExt :=
      JS.slice filename 0 (- JS.length (fileExtension config)) in
    let lastHyphenIndex := JS.lastIndexOf nameWithoutExt " - " in
    if lastHyphenIndex =? -1 then None
    else
      let soundkitName := JS.trim (JS.substring2 nameWithoutExt 0 lastHyphenIndex) in
      let instrument :=
        JS.toLowerCase (JS.trim (JS.substring1 nameWithoutExt (lastHyphenIndex + 3))) in
      if negb (JS.includes (cfg_instruments config) instrument) then None
      else Some (mkParsed soundkitName instrument).

(** ** [SoundkitScanner.generateId] *)

Definition is_lower_or_digit (c : ascii) : bool :=
  let n := nat_of_ascii c in
  (((97 <=? n) && (n <=? 122)) || ((48 <=? n) && (n <=? 57)))%nat.

(** [.replace(/[^a-z0-9]+/g, '-')]: the scan of the global, greedy regular
    expression; [in_run] tells that the current match has already emitted
    its replacement. *)
Fixpoint replace_runs (in_run : bool) (s : string) : string :=
  match s with
  | EmptyString => EmptyString
  | String c s' =>
      if is_lower_or_digit c then String c (replace_runs false s')
      else if in_run then replace_runs true s'
      else String "-" (replace_runs true s')
  end.

(** [.replace(/^-|-$/g, '')]: one hyphen at the start of the input and one
    at its end are removed. *)
Definition strip_start_hyphen (s : string) : string :=
  match s with
  | String "-" s' => s'
  | _ => s
  end.

Fixpoint strip_end_hyphen (s : string) : string :=
  match s with
  | EmptyString => EmptyString
  | String c EmptyString => if Ascii.eqb c "-" then EmptyString else s
  | String c s' => String c (strip_end_hyphen s')
  end.

Definition generateId (name : string) : string :=
  strip_end_hyphen (strip_start_hyphen (replace_runs false (JS.toLowerCase name))).

(** ** [Array.prototype.sort]

    ECMAScript requires the sort to be stable; with a consistent comparator
    the result is then determined, and a stable insertion sort computes it.
    The comparator returns the sign of the number the JavaScript comparator
    returns: [Lt] negative, [Eq] zero, [Gt] positive. *)

Section js_sort.
Context {A : Type} (compareFn : A → A → comparison).

Fixpoint sort_insert (x : A) (l : list A) : list A :=
  match l with
  | [] => [x]
  | y :: l' =>
      match compareFn x y with
      | Gt => y :: sort_insert x l'
      | _ => x :: l
      end
  end.

Definition js_sort (l : list A) : list A := foldr sort_insert [] l.
End js_sort.

(** The default comparator of [sort()]: code-unit order of the strings. *)
Definition default_compare (a b : string) : comparison := String.compare a b.

(** [[...new Set(array)]]: the first occurrence of each element, in order. *)
Fixpoint set_spread (l : list string) : list string :=
  match l with
  | [] => []
  | x :: l' => x :: filter (λ y, y ≠ x) (set_spread l')
  end.

(** The sign of a number. *)
Definition sign (q : Qc) : comparison := (q ?= 0)%Qc.

(** ** The kit records and [SoundkitScanner.scan] *)

Record Kit := mkKit {
  kit_name : string;
  kit_id : string;
  kit_instruments : gmap string string;
  completeness : Qc;
  availableInstruments : list string
}.

(** The outcome of [fs.readdir] on the subdirectory of an instrument: the
    listing, or a rejection with code [ENOENT], or another failure. *)
Inductive Readdir :=
  | Files (files : list string)
  | ENOENT
  | ReadError.

(** The samples directory, seen through [readdir]: the subdirectory of an
    instrument is addressed by the instrument tag. *)
Definition SamplesDir := string → Readdir.

Definition newSoundkit (soundkitName : string) : Kit := {|
  kit_name := soundkitName;
  kit_id := generateId soundkitName;
  kit_instruments := ∅;
  completeness := 0%Qc;
  availableInstruments := []
|}.

(** The last two statements of the inner loop, on the kit they update:
    [soundkit.instruments[instrument] = `${instrument}/${filename}`] and
    [soundkit.availableInstruments.push(instrument)]. *)
Definition record_file (instrument filename : string) (soundkit : Kit) : Kit := {|
  kit_name := kit_name soundkit;
  kit_id := kit_id soundkit;
  kit_instruments :=
    <[instrument := instrument +:+ "/" +:+ filename]> (kit_instruments soundkit);
  completeness := completeness soundkit;
  availableInstruments := availableInstruments soundkit ++ [instrument]
|}.

(** The body of the inner loop of [scan], for one file name.  The kit is
    looked up by the parsed name and created when the map lacks it; the
    instrument is the one of the subdirectory, not the parsed one. *)
Definition scan_file (config : Config) (instrument : string)
    (soundkits : gmap string Kit) (filename : string) : gmap string Kit :=
  if negb (JS.endsWith filename (fileExtension config))
     || JS.startsWith filename "."
  then soundkits
  else
    match parseFilename config filename with
    | None => soundkits
    | Some parsed =>
        let soundkitName := soundkitName parsed in
        let soundkit :=
          match soundkits !! soundkitName with
          | Some soundkit => soundkit
          | None => newSoundkit soundkitName
          end in
        <[soundkitName := record_file instrument filename soundkit]> soundkits
    end.

(** The body of the outer loop: one subdirectory.  Both kinds of failure of
    [readdir] are caught and contribute nothing. *)
Definition scan_dir (config : Config) (samples : SamplesDir)
    (soundkits : gmap string Kit) (instrument : string) : gmap string Kit :=
  match samples instrument with
  | Files files => foldl (scan_file config instrument) soundkits files
  | ENOENT => soundkits
  | ReadError => soundkits
  end.

(** [(length / instruments.length) * 100].  A kit exists only when some
    subdirectory of the vocabulary was scanned, so [total] is positive
    wherever [scan] computes a percentage. *)
Definition percentage (count total : nat) : Qc :=
  (Qc_of_Z (Z.of_nat count) / Qc_of_Z (Z.of_nat total) * Qc_of_Z 100)%Qc.

(** The final [forEach] of [scan]. *)
Definition finish_kit (config : Config) (soundkit : Kit) : Kit :=
  let available := js_sort default_compare (set_spread (availableInstruments soundkit)) in
  {| kit_name := kit_name soundkit;
     kit_id := kit_id soundkit;
     kit_instruments := kit_instruments soundkit;
     completeness :=
       percentage (List.length available) (List.length (cfg_instruments config));
     availableInstruments := available |}.

Definition scan (config : Config) (samples : SamplesDir) : gmap string Kit :=
  finish_kit config <$> foldl (scan_dir config samples) ∅ (cfg_instruments config).

(** ** [generateStatistics] and [generateManifest] *)

(** A coverage counter: a count, or [NaN] after incrementing a missing
    property. *)
Inductive Number :=
  | Num (n : nat)
  | NaN.

(** [coverage[inst]++] *)
Definition increment (v : option Number) : Number :=
  match v with
  | Some (Num n) => Num (S n)
  | Some NaN => NaN
  | None => NaN
  end.

Record Statistics := mkStatistics {
  totalFiles : nat;
  instrumentCoverage : gmap string Number;
  completeSoundkits : nat;
  averageCompleteness : Qc
}.

(** The body of the inner [forEach]: [instrumentCoverage[inst]++] and
    [totalFiles++]. *)
Definition count_instrument (stats : Statistics) (inst : string) : Statistics := {|
  totalFiles := S (totalFiles stats);
  instrumentCoverage :=
    <[inst := increment (instrumentCoverage stats !! inst)]> (instrumentCoverage stats);
  completeSoundkits := completeSoundkits stats;
  averageCompleteness := averageCompleteness stats
|}.

(** The body of the outer [forEach], for one kit. *)
Definition count_kit (stats : Statistics) (kit : Kit) : Statistics :=
  let stats := foldl count_instrument stats (availableInstruments kit) in
  if decide (completeness kit = Qc_of_Z 100)
  then {| totalFiles := totalFiles stats;
          instrumentCoverage := instrumentCoverage stats;
          completeSoundkits := S (completeSoundkits stats);
          averageCompleteness := averageCompleteness stats |}
  else stats.

Definition generateStatistics (config : Config) (soundkits : list Kit) : Statistics :=
  let stats := {|
    totalFiles := 0;
    instrumentCoverage :=
      foldl (λ coverage inst, <[inst := Num 0]> coverage) ∅ (cfg_instruments config);
    completeSoundkits := 0;
    averageCompleteness := 0%Qc |} in
  let stats := foldl count_kit stats soundkits in
  {| totalFiles := totalFiles stats;
     instrumentCoverage := instrumentCoverage stats;
     completeSoundkits := completeSoundkits stats;
     averageCompleteness :=
       if decide (0 < List.length soundkits)%nat
       then (foldl (λ sum kit, sum + completeness kit) 0 soundkits
             / Qc_of_Z (Z.of_nat (List.length soundkits)))%Qc
       else 0%Qc |}.

Record Manifest := mkManifest {
  version : string;
  generated : string;
  totalSoundkits : nat;
  manifest_instruments : list string;
  baseUrl : option string;
  soundkits : list Kit;
  statistics : Statistics
}.

(** [x || null] on a string: the empty string is falsy. *)
Definition or_null (x : string) : option string :=
  if decide (x = "") then None else Some x.

Section generateManifest.
(** [String.prototype.localeCompare], the collation of the host, and the
    clock read by [new Date().toISOString()]. *)
Context (localeCompare : string → string → comparison) (now : string).

(** The values of the kit map; the order in which the map hands them out
    matters only among names that [localeCompare] ties. *)
Definition generateManifest (config : Config) (kits : gmap string Kit) : Manifest :=
  let soundkitsArray :=
    js_sort (λ a b, localeCompare (kit_name a) (kit_name b))
            (snd <$> map_to_list kits) in
  {| version := "1.0.0";
     generated := now;
     totalSoundkits := List.length soundkitsArray;
     manifest_instruments := cfg_instruments config;
     baseUrl := or_null (githubPagesBaseUrl config);
     soundkits := soundkitsArray;
     statistics := generateStatistics config soundkitsArray |}.

(** [run], up to the manifest it hands to [saveManifest]: the scan, then the
    literal empty manifest when no kit was found and [generateManifest]
    otherwise. *)
Definition run (config : Config) (samples : SamplesDir) : Manifest :=
  let kits := scan config samples in
  if decide (size kits = 0%nat)
  then {| version := "1.0.0";
          generated := now;
          totalSoundkits := 0;
          manifest_instruments := cfg_instruments config;
          baseUrl := or_null (githubPagesBaseUrl config);
          soundkits := [];
          statistics := generateStatistics config [] |}
  else generateManifest config kits.
End generateManifest.

(** ** [SoundkitManager] *)

(** The completion of a call: a value, or a thrown [TypeError]. *)
Inductive Completion (A : Type) :=
  | Return (a : A)
  | Throw_TypeError.
Arguments Return {A} a.
Arguments Throw_TypeError {A}.

Definition bind {A B} (c : Completion A) (k : A → Completion B) : Completion B :=
  match c with
  | Return a => k a
  | Throw_TypeError => Throw_TypeError
  end.

Record Options := mkOptions {
  opt_baseUrl : option string;
  opt_samplesPath : option string
}.

Record LookupMaps := mkLookupMaps {
  soundkitMap : gmap string Kit;
  soundkitsByInstrument : gmap string (list string)
}.

(** [this.soundkitsByInstrument.get(instrument).push(soundkit.id)]: [push]
    on [undefined] throws. *)
Definition push_id (id : string) (maps : LookupMaps) (instrument : string)
    : Completion LookupMaps :=
  match soundkitsByInstrument maps !! instrument with
  | None => Throw_TypeError
  | Some ids =>
      Return {| soundkitMap := soundkitMap maps;
                soundkitsByInstrument :=
                  <[instrument := ids ++ [id]]> (soundkitsByInstrument maps) |}
  end.

(** A [forEach] whose body may throw. *)
Fixpoint forEach {A S} (body : S → A → Completion S) (l : list A) (s : S)
    : Completion S :=
  match l with
  | [] => Return s
  | x :: l' => bind (body s x) (forEach body l')
  end.

(** The body of the [forEach] over [manifest.soundkits]. *)
Definition add_soundkit (maps : LookupMaps) (soundkit : Kit) : Completion LookupMaps :=
  let maps := {| soundkitMap := <[kit_id soundkit := soundkit]> (soundkitMap maps);
                 soundkitsByInstrument := soundkitsByInstrument maps |} in
  forEach (push_id (kit_id soundkit)) (availableInstruments soundkit) maps.

Definition _buildLookupMaps (manifest : Manifest) : Completion LookupMaps :=
  let maps := {|
    soundkitMap := ∅;
    soundkitsByInstrument :=
      foldl (λ byInstrument instrument, <[instrument := []]> byInstrument)
            ∅ (manifest_instruments manifest) |} in
  forEach add_soundkit (soundkits manifest) maps.

Record SoundkitManager := mkSoundkitManager {
  manifest : Manifest;
  mgr_baseUrl : string;
  samplesPath : string;
  maps : LookupMaps
}.

(** [a || b] on possibly absent strings. *)
Definition or_else (a : option string) (b : string) : string :=
  match a with
  | Some x => if decide (x = "") then b else x
  | None => b
  end.

(** The constructor. *)
Definition new_SoundkitManager (manifestData : Manifest) (options : Options)
    : Completion SoundkitManager :=
  bind (_buildLookupMaps manifestData) (λ maps,
    Return {| manifest := manifestData;
              mgr_baseUrl :=
                or_else (opt_baseUrl options) (or_else (baseUrl manifestData) "");
              samplesPath := or_else (opt_samplesPath options) "samples";
              maps := maps |}).

(** [this.soundkitMap.get(soundkitId) || null]; a kit is an object, hence
    truthy. *)
Definition getSoundkit (this : SoundkitManager) (soundkitId : string) : option Kit :=
  soundkitMap (maps this) !! soundkitId.

Definition getSampleUrl (this : SoundkitManager) (soundkitId instrument : string)
    : option string :=
  match getSoundkit this soundkitId with
  | None => None
  | Some soundkit =>
      match kit_instruments soundkit !! instrument with
      | None => None
      | Some relativePath =>
          if decide (relativePath = "") then None
          else if decide (mgr_baseUrl this = "")
          then Some (samplesPath this +:+ "/" +:+ relativePath)
          else Some (mgr_baseUrl this +:+ "/" +:+ samplesPath this +:+ "/" +:+ relativePath)
      end
  end.

(** ** [getSoundkitsByCompleteness] over a store of arrays

    The manifest's [soundkits] array is a mutable object; [sort] works in
    place.  Arrays live in a store and are named by references. *)

Definition Ref := nat.
Definition Store := gmap Ref (list Kit).

(** [[...array]]: a fresh array with the same elements. *)
Definition spread (array : Ref) (σ : Store) : option (Ref * Store) :=
  match σ !! array with
  | None => None
  | Some elements =>
      let r := fresh (dom σ) in
      Some (r, <[r := elements]> σ)
  end.

(** [array.sort(compareFn)]: sorts in place and returns the same array. *)
Definition sort_in_place (compareFn : Kit → Kit → comparison) (array : Ref)
    (σ : Store) : option (Ref * Store) :=
  match σ !! array with
  | None => None
  | Some elements => Some (array, <[array := js_sort compareFn elements]> σ)
  end.

Definition by_completeness (ascending : bool) (a b : Kit) : comparison :=
  if ascending then sign (completeness a - completeness b)
  else sign (completeness b - completeness a).

(** [soundkits] is the reference held in [this.manifest.soundkits]. *)
Definition getSoundkitsByCompleteness (soundkits : Ref) (ascending : bool)
    (σ : Store) : option (Ref * Store) :=
  match spread soundkits σ with
  | None => None
  | Some (copy, σ') => sort_in_place (by_completeness ascending) copy σ'
  end.

(** ** Definitions that follow the words of the specification *)

(** The separator between kit name and instrument tag. *)
Definition separator : string := " - ".

(** [name] and [tag] surround the last separator of [name - tag]: no other
    way of cutting the string around a separator has a longer left part. *)
Definition splits_at_last_separator (name tag : string) : Prop :=
  ∀ a b, name +:+ separator +:+ tag = a +:+ separator +:+ b →
         (String.length a ≤ String.length name)%nat.

(** [s] contains a separator. *)
Definition has_separator (s : string) : Prop :=
  ∃ a b, s = a +:+ separator +:+ b.

(** [s] ends in [suffix]. *)
Definition has_suffix (s suffix : string) : Prop :=
  ∃ base, s = base +:+ suffix.

(** The maximal runs of a string, each tagged with whether its characters
    are in [[a-z0-9]]. *)
Fixpoint maximal_runs (s : string) : list (bool * string) :=
  match s with
  | EmptyString => []
  | String c s' =>
      let k := is_lower_or_digit c in
      match maximal_runs s' with
      | (k', r) :: rest =>
          if Bool.eqb k k' then (k, String c r) :: rest
          else (k, String c EmptyString) :: (k', r) :: rest
      | [] => [(k, String c EmptyString)]
      end
  end.

(** A run inside [[a-z0-9]] stays; any other run becomes one hyphen. *)
Definition collapse_run (r : bool * string) : string :=
  if r.1 then r.2 else "-".

(** A leading hyphen, when there is one, is cut off. *)
Definition strip_leading (s : string) : string :=
  if String.prefix "-" s then String.substring 1 (String.length s - 1) s else s.

(** A trailing hyphen, when there is one, is cut off. *)
Definition strip_trailing (s : string) : string :=
  if JS.endsWith s "-" then String.substring 0 (String.length s - 1) s else s.

(** The runs, collapsed and put together again. *)
Definition collapse (runs : list (bool * string)) : string :=
  String.concat "" (collapse_run <$> runs).

(** The slug as the specification words it. *)
Definition slug (name : string) : string :=
  strip_trailing (strip_leading (collapse (maximal_runs (JS.toLowerCase name)))).

(** [x] may stand before [y] in an array sorted with [compareFn]. *)
Definition ordered_by {A} (compareFn : A → A → comparison) (x y : A) : Prop :=
  compareFn x y ≠ Gt.

(** *** Notions used to state the properties of the statistics *)

(** JavaScript [+] on coverage counters. *)
Definition number_add (a b : Number) : Number :=
  match a, b with
  | Num x, Num y => Num (x + y)
  | _, _ => NaN
  end.

(** [sum(instrumentCoverage.values())] *)
Definition sum_values (coverage : gmap string Number) : Number :=
  map_fold (λ _ v acc, number_add v acc) (Num 0) coverage.

(** The arithmetic mean; 0 for no values. *)
Definition mean (values : list Qc) : Qc :=
  match values with
  | [] => 0%Qc
  | _ => (foldr Qcplus 0 values / Qc_of_Z (Z.of_nat (List.length values)))%Qc
  end.

(** Every tag of every kit is in the vocabulary. *)
Definition within_vocabulary (vocabulary : list string) (kits : list Kit) : Prop :=
  ∀ kit x, kit ∈ kits → x ∈ availableInstruments kit → x ∈ vocabulary.

(** The counters are numbers on the vocabulary and add up to [totalFiles]. *)
Definition coverage_consistent (config : Config) (stats : Statistics) : Prop :=
  (∀ x, x ∈ cfg_instruments config →
        ∃ n, instrumentCoverage stats !! x = Some (Num n)) ∧
  sum_values (instrumentCoverage stats) = Num (totalFiles stats).

(** *** Notions used to state the properties of [scan] *)

(** The kit name under which the inner loop of [scan] files a file name,
    if it does not skip it. *)
Definition accepted (config : Config) (filename : string) : option string :=
  if negb (JS.endsWith filename (fileExtension config))
     || JS.startsWith filename "."
  then None
  else soundkitName <$> parseFilename config filename.

(** The files that a [readdir] hands to the inner loop. *)
Definition listing (r : Readdir) : list string :=
  match r with
  | Files files => files
  | ENOENT | ReadError => []
  end.

(** File [f] of the subdirectory of [i] contributes to the kit named [n]. *)
Definition contributes (config : Config) (samples : SamplesDir)
    (n i f : string) : Prop :=
  i ∈ cfg_instruments config ∧ f ∈ listing (samples i) ∧ accepted config f = Some n.

(** Two outcomes of [readdir] on one subdirectory that differ at most in
    the order of the listing. *)
Definition same_listing (r r' : Readdir) : Prop :=
  match r, r' with
  | Files files, Files files' => files ≡ₚ files'
  | ENOENT, ENOENT => True
  | ReadError, ReadError => True
  | _, _ => False
  end.

(** No subdirectory holds two file names that are filed under one kit. *)
Definition one_file_per_kit (config : Config) (samples : SamplesDir) : Prop :=
  ∀ n i f f', contributes config samples n i f →
              contributes config samples n i f' → f = f'.

(** A kit without the paths of its files: name, id, the instrument tags
    that have a path, availableInstruments and completeness. *)
Definition outline (kit : Kit)
    : string * string * gset string * list string * Qc :=
  (kit_name kit, kit_id kit, dom (kit_instruments kit),
   availableInstruments kit, completeness kit).

(** What one contribution [(instrument, filename)] does to the entry of kit
    [n] in the map. *)
Definition apply_contribution (n : string) (entry : option Kit)
    (c : string * string) : option Kit :=
  Some (record_file c.1 c.2 (default (newSoundkit n) entry)).

(** The contributions to kit [n], in the order in which [scan] meets them. *)
Definition dir_contributions (config : Config) (samples : SamplesDir)
    (n i : string) : list (string * string) :=
  (λ f, (i, f)) <$> filter (λ f, accepted config f = Some n) (listing (samples i)).

Definition contributions (config : Config) (samples : SamplesDir)
    (n : string) (dirs : list string) : list (string * string) :=
  dirs ≫= dir_contributions config samples n.

(** What the contributions [L] met so far say about a kit of name [n]. *)
Definition kit_records (n : string) (L : list (string * string)) (kit : Kit) : Prop :=
  kit_name kit = n ∧ kit_id kit = generateId n ∧ completeness kit = 0%Qc ∧
  (∀ x, x ∈ availableInstruments kit ↔ ∃ f, (x, f) ∈ L) ∧
  (∀ i p, kit_instruments kit !! i = Some p → ∃ f, (i, f) ∈ L ∧ p = i +:+ "/" +:+ f) ∧
  (∀ i f, (i, f) ∈ L → is_Some (kit_instruments kit !! i)).

Definition entry_records (n : string) (L : list (string * string))
    (entry : option Kit) : Prop :=
  match entry with
  | None => L = []
  | Some kit => L ≠ [] ∧ kit_records n L kit
  end.

(** *** Notions used to state the properties of the manager *)

(** The kit that the id map holds for an id: the last kit of the manifest
    that carries it. *)
Definition kit_with_id (soundkits : list Kit) (id : string) : option Kit :=
  last (filter (λ kit, kit_id kit = id) soundkits).

(** The form of a sample URL under a base URL. *)
Definition with_base (baseUrl samplesPath relativePath : string) : string :=
  baseUrl +:+ "/" +:+ samplesPath +:+ "/" +:+ relativePath.

(** The form without a base URL. *)
Definition without_base (samplesPath relativePath : string) : string :=
  samplesPath +:+ "/" +:+ relativePath.

(** The per-instrument lists exist exactly for the vocabulary. *)
Definition lists_for (vocabulary : list string) (maps : LookupMaps) : Prop :=
  ∀ tag, is_Some (soundkitsByInstrument maps !! tag) ↔ tag ∈ vocabulary.

(** Every id in a per-instrument list resolves through the id map. *)
Definition ids_resolve (maps : LookupMaps) : Prop :=
  ∀ tag ids id, soundkitsByInstrument maps !! tag = Some ids → id ∈ ids →
                is_Some (soundkitMap maps !! id).

(** The order that [getSoundkitsByCompleteness] asks for. *)
Definition in_order (ascending : bool) (a b : Kit) : Prop :=
  if ascending then (completeness a ≤ completeness b)%Qc
  else (completeness b ≤ completeness a)%Qc.

(** The configuration with its vocabulary listed, hence scanned, in
    another order. *)
Definition reorder (config : Config) (order : list string) : Config := {|
  cfg_instruments := order;
  fileExtension := fileExtension config;
  githubPagesBaseUrl := githubPagesBaseUrl config
|}.

(** *** Directory trees used as concrete inputs *)

(** The two Batman Begins files of the README, each in its subdirectory. *)
Definition samples_batman : SamplesDir := λ i,
  if decide (i = "kick") then Files ["Batman Begins - kick.wav"]
  else if decide (i = "snare") then Files ["Batman Begins - snare.wav"]
  else ENOENT.

(** [kick/] holds two files of kit [A]: the names differ by one space
    before the separator, which [trim] removes. *)
Definition samples_twins : SamplesDir := λ i,
  if decide (i = "kick") then Files ["A - kick.wav"; "A  - kick.wav"]
  else ENOENT.

(** The same tree, listed in the other order. *)
Definition samples_twins_rev : SamplesDir := λ i,
  if decide (i = "kick") then Files ["A  - kick.wav"; "A - kick.wav"]
  else ENOENT.

(** Two kits; [kick/] holds a file of each. *)
Definition samples_two_kits : SamplesDir := λ i,
  if decide (i = "kick")
  then Files ["Batman Begins - kick.wav"; "TR-808 Classic - kick.wav"]
  else if decide (i = "snare") then Files ["Batman Begins - snare.wav"]
  else ENOENT.

Definition samples_two_kits_rev : SamplesDir := λ i,
  if decide (i = "kick")
  then Files ["TR-808 Classic - kick.wav"; "Batman Begins - kick.wav"]
  else if decide (i = "snare") then Files ["Batman Begins - snare.wav"]
  else ENOENT.

(** A vocabulary that lists its only tag twice, and one file for it. *)
Definition config_repeated : Config := {|
  cfg_instruments := ["kick"; "kick"];
  fileExtension := ".wav";
  githubPagesBaseUrl := ""
|}.

Definition samples_kick_only : SamplesDir := λ i,
  if decide (i = "kick") then Files ["A - kick.wav"] else ENOENT.

(** The kit that the Batman Begins files make under [CONFIG]. *)
Definition kit_batman : Kit := {|
  kit_name := "Batman Begins";
  kit_id := "batman-begins";
  kit_instruments :=
    <["kick" := "kick/Batman Begins - kick.wav"]>
      (<["snare" := "snare/Batman Begins - snare.wav"]> ∅);
  completeness := percentage 2 8;
  availableInstruments := ["kick"; "snare"]
|}.

(** A kit that lists a tag outside the vocabulary of [CONFIG]. *)
Definition kit_cowbell : Kit := {|
  kit_name := "Cow";
  kit_id := "cow";
  kit_instruments := <["cowbell" := "cowbell/Cow - cowbell.wav"]> ∅;
  completeness := percentage 1 8;
  availableInstruments := ["cowbell"]
|}.

(** Two kits whose names have the same slug. *)
Definition samples_same_slug : SamplesDir := λ i,
  if decide (i = "kick") then Files ["A B - kick.wav"; "A-B - kick.wav"]
  else ENOENT.

(** A manifest whose only kit stores the empty path for [kick]. *)
Definition kit_empty_path : Kit := {|
  kit_name := "A";
  kit_id := "a";
  kit_instruments := <["kick" := ""]> ∅;
  completeness := percentage 1 1;
  availableInstruments := ["kick"]
|}.

Definition no_statistics : Statistics := {|
  totalFiles := 0;
  instrumentCoverage := ∅;
  completeSoundkits := 0;
  averageCompleteness := 0%Qc
|}.

Definition manifest_of (vocabulary : list string) (kits : list Kit) : Manifest := {|
  version := "1.0.0";
  generated := "";
  totalSoundkits := List.length kits;
  manifest_instruments := vocabulary;
  baseUrl := None;
  soundkits := kits;
  statistics := no_statistics
|}.

Definition no_options : Options := {|
  opt_baseUrl := None;
  opt_samplesPath := None
|}.

(** A kit of completeness 25 and two of completeness 12.5. *)
Definition kit_one (name : string) : Kit := {|
  kit_name := name;
  kit_id := generateId name;
  kit_instruments := <["kick" := "kick/" +:+ name +:+ " - kick.wav"]> ∅;
  completeness := percentage 1 8;
  availableInstruments := ["kick"]
|}.

Definition store_three : Store :=
  <[0%nat := [kit_one "X"; kit_batman; kit_one "Y"]]> ∅.

(** ** More JavaScript primitives *)

Module JSString.

(** [s.includes(x)]: [x] occurs somewhere in [s]. *)
Fixpoint includes (s x : string) : bool :=
  String.prefix x s ||
  match s with
  | EmptyString => false
  | String _ s' => includes s' x
  end.

End JSString.

Module JSArray.

(** [array.find(p)]: the first element that satisfies [p], or [undefined]. *)
Definition find {A} (p : A → bool) (l : list A) : option A := List.find p l.

(** [array.some(p)] *)
Definition some {A} (p : A → bool) (l : list A) : bool := existsb p l.

(** [Object.keys(object)]; the order of the keys is outside the model. *)
Definition keys {V} (object : gmap string V) : list string :=
  (map_to_list object).*1.

End JSArray.

(** ** The other queries of [SoundkitManager] *)

Definition getAllSoundkits (this : SoundkitManager) : list Kit :=
  soundkits (manifest this).

(** [find(...) || null]; a kit is an object, hence truthy. *)
Definition getSoundkitByName (this : SoundkitManager) (name : string)
    : option Kit :=
  let normalizedName := JS.toLowerCase name in
  JSArray.find
    (λ kit, bool_decide (JS.toLowerCase (kit_name kit) = normalizedName))
    (soundkits (manifest this)).

(** [this.soundkitsByInstrument.get(instrument) || []], each id then looked
    up in the id map; [None] stands for an [undefined] element. *)
Definition getSoundkitsByInstrument (this : SoundkitManager)
    (instrument : string) : list (option Kit) :=
  let soundkitIds :=
    match soundkitsByInstrument (maps this) !! instrument with
    | Some ids => ids
    | None => []
    end in
  (λ id, soundkitMap (maps this) !! id) <$> soundkitIds.

Definition getCompleteSoundkits (this : SoundkitManager) : list Kit :=
  filter (λ kit, completeness kit = Qc_of_Z 100) (soundkits (manifest this)).

Definition searchSoundkits (this : SoundkitManager) (query : string)
    : list Kit :=
  let normalizedQuery := JS.toLowerCase query in
  filter
    (λ kit, JSString.includes (JS.toLowerCase (kit_name kit)) normalizedQuery = true)
    (soundkits (manifest this)).

(** The object of URLs, one property per key of [soundkit.instruments];
    a value is [null] where [getSampleUrl] returns [null]. *)
Definition getSoundkitUrls (this : SoundkitManager) (soundkitId : string)
    : option (gmap string (option string)) :=
  match getSoundkit this soundkitId with
  | None => None
  | Some soundkit =>
      Some (foldl
              (λ urls instrument,
                 <[instrument := getSampleUrl this soundkitId instrument]> urls)
              ∅ (JSArray.keys (kit_instruments soundkit)))
  end.

Definition getStatistics (this : SoundkitManager) : Statistics :=
  statistics (manifest this).

Record Metadata := mkMetadata {
  meta_version : string;
  meta_generated : string;
  meta_totalSoundkits : nat;
  meta_instruments : list string
}.

Definition getMetadata (this : SoundkitManager) : Metadata := {|
  meta_version := version (manifest this);
  meta_generated := generated (manifest this);
  meta_totalSoundkits := totalSoundkits (manifest this);
  meta_instruments := manifest_instruments (manifest this)
|}.

Definition hasInstrument (this : SoundkitManager) (soundkitId instrument : string)
    : bool :=
  match getSoundkit this soundkitId with
  | Some soundkit => JS.includes (availableInstruments soundkit) instrument
  | None => false
  end.

(** ** The catalog page ([js/soundkit-catalog.js])

    The [state] object, without its audio fields; rendering into the page
    is left out. *)

Record CatalogState := mkCatalogState {
  allSoundkits : list Kit;
  filteredSoundkits : list Kit;
  currentSort : string;
  currentFilter : string;
  searchQuery : string
}.

(** The [state] literal. *)
Definition initial_state : CatalogState := {|
  allSoundkits := [];
  filteredSoundkits := [];
  currentSort := "name-asc";
  currentFilter := "all";
  searchQuery := ""
|}.

(** [state.filteredSoundkits = kits] *)
Definition set_filteredSoundkits (kits : list Kit) (state : CatalogState)
    : CatalogState := {|
  allSoundkits := allSoundkits state;
  filteredSoundkits := kits;
  currentSort := currentSort state;
  currentFilter := currentFilter state;
  searchQuery := searchQuery state
|}.

(** [state.currentSort = value] *)
Definition set_currentSort (value : string) (state : CatalogState)
    : CatalogState := {|
  allSoundkits := allSoundkits state;
  filteredSoundkits := filteredSoundkits state;
  currentSort := value;
  currentFilter := currentFilter state;
  searchQuery := searchQuery state
|}.

(** [state.currentFilter = value] *)
Definition set_currentFilter (value : string) (state : CatalogState)
    : CatalogState := {|
  allSoundkits := allSoundkits state;
  filteredSoundkits := filteredSoundkits state;
  currentSort := currentSort state;
  currentFilter := value;
  searchQuery := searchQuery state
|}.

(** [state.searchQuery = value] *)
Definition set_searchQuery (value : string) (state : CatalogState)
    : CatalogState := {|
  allSoundkits := allSoundkits state;
  filteredSoundkits := filteredSoundkits state;
  currentSort := currentSort state;
  currentFilter := currentFilter state;
  searchQuery := value
|}.

Section catalog.
(** [String.prototype.localeCompare], as in [generateManifest]. *)
Context (localeCompare : string → string → comparison).

(** The comparator of each [case] of the [switch]; no case, no sort. *)
Definition sort_comparator (sortBy : string) : option (Kit → Kit → comparison) :=
  if decide (sortBy = "name-asc")
  then Some (λ a b, localeCompare (kit_name a) (kit_name b))
  else if decide (sortBy = "name-desc")
  then Some (λ a b, localeCompare (kit_name b) (kit_name a))
  else if decide (sortBy = "completeness-desc")
  then Some (λ a b, sign (completeness b - completeness a))
  else if decide (sortBy = "completeness-asc")
  then Some (λ a b, sign (completeness a - completeness b))
  else None.

(** [sortSoundkits]: a copy of the filtered kits, sorted, becomes the
    filtered kits. *)
Definition sortSoundkits (sortBy : string) (state : CatalogState) : CatalogState :=
  let sorted := filteredSoundkits state in
  let sorted :=
    match sort_comparator sortBy with
    | Some compareFn => js_sort compareFn sorted
    | None => sorted
    end in
  set_filteredSoundkits sorted state.

(** The test of the search filter, for the lower-cased query. *)
Definition matches_query (query : string) (kit : Kit) : bool :=
  JSString.includes (JS.toLowerCase (kit_name kit)) query
  || JSArray.some (λ inst, JSString.includes inst query) (availableInstruments kit).

Definition filterSoundkits (state : CatalogState) : CatalogState :=
  let filtered := allSoundkits state in
  let filtered :=
    if decide (searchQuery state = "") then filtered
    else
      let query := JS.toLowerCase (searchQuery state) in
      filter (λ kit, matches_query query kit = true) filtered in
  let filtered :=
    if decide (currentFilter state = "complete")
    then filter (λ kit, completeness kit = Qc_of_Z 100) filtered
    else if decide (currentFilter state = "incomplete")
    then filter (λ kit, (completeness kit < Qc_of_Z 100)%Qc) filtered
    else filtered in
  sortSoundkits (currentSort state) (set_filteredSoundkits filtered state).

(** [initializeCatalog], on the state: all kits of the manager, sorted. *)
Definition initializeCatalog (this : SoundkitManager) (state : CatalogState)
    : CatalogState :=
  let allSoundkits := getAllSoundkits this in
  let state := {|
    allSoundkits := allSoundkits;
    filteredSoundkits := allSoundkits;
    currentSort := currentSort state;
    currentFilter := currentFilter state;
    searchQuery := searchQuery state |} in
  sortSoundkits (currentSort state) state.

(** The events that [setupEventListeners] listens to: typing in the search
    box, the two selects, and Escape while the search box has the focus. *)
Inductive Event :=
  | SearchInput (value : string)
  | SortChange (value : string)
  | FilterChange (value : string)
  | EscapeInSearch.

Definition handle (event : Event) (state : CatalogState) : CatalogState :=
  match event with
  | SearchInput value => filterSoundkits (set_searchQuery value state)
  | SortChange value =>
      let state := set_currentSort value state in
      sortSoundkits (currentSort state) state
  | FilterChange value => filterSoundkits (set_currentFilter value state)
  | EscapeInSearch => filterSoundkits (set_searchQuery "" state)
  end.
End catalog.

(** ** [SoundkitManager.loadSoundkit]

    [fetch], the test of [response.ok] and [decodeAudioData] are seen
    through their joint outcome for a URL: the decoded buffer, or [None]
    for a failure at any stage, which the [catch] handler turns into
    [null].  The host chooses the order in which the promises settle. *)

(** How the promise that an [async] method returns settles. *)
Inductive Settled (A : Type) :=
  | Resolved (value : A)
  | Rejected_not_found (soundkitId : string).
Arguments Resolved {A} value.
Arguments Rejected_not_found {A} soundkitId.

Section loadSoundkit.
Context {AudioBuffer : Type}.
Context (download : option string → option AudioBuffer).
Context (settle_order :
  list (string * option string) → list (string * option string)).

(** The last handler of one promise: [buffers[instrument] = audioBuffer],
    or [buffers[instrument] = null] after a failure. *)
Definition settle (buffers : gmap string (option AudioBuffer))
    (entry : string * option string) : gmap string (option AudioBuffer) :=
  <[entry.1 := download entry.2]> buffers.

Definition loadSoundkit (this : SoundkitManager) (soundkitId : string)
    : Settled (gmap string (option AudioBuffer)) :=
  match getSoundkitUrls this soundkitId with
  | None => Rejected_not_found soundkitId
  | Some urls => Resolved (foldl settle ∅ (settle_order (map_to_list urls)))
  end.
End loadSoundkit.

(** *** Further notions used to state properties *)

(** An id is well formed: lower-case letters, digits and single hyphens,
    with no hyphen at either end.  [after_hyphen] forbids a hyphen at the
    front. *)
Fixpoint single_hyphens (after_hyphen : bool) (s : string) : bool :=
  match s with
  | EmptyString => true
  | String c s' =>
      if is_lower_or_digit c then single_hyphens false s'
      else Ascii.eqb c "-" && negb after_hyphen && single_hyphens true s'
  end.

Definition well_formed_id (s : string) : bool :=
  single_hyphens true s && negb (JS.endsWith s "-").

(** The file names of the subdirectory of [i] that [scan] files under the
    kit named [n], in the order of the listing. *)
Definition files_of (config : Config) (samples : SamplesDir) (n i : string)
    : list string :=
  filter (λ f, accepted config f = Some n) (listing (samples i)).

(** The ids that the constructor pushes on the list of [tag], in order: the
    id of a kit once for each time the kit lists the tag. *)
Definition ids_for (tag : string) (kits : list Kit) : list string :=
  kits ≫= λ kit, (λ _, kit_id kit) <$> filter (λ x, x = tag) (availableInstruments kit).

(** [x] occurs in [s]. *)
Definition occurs_in (x s : string) : Prop := ∃ a b, s = a +:+ x +:+ b.

(** The kits that the catalog shows for a search query and a completeness
    filter. *)
Definition visible (query filter_ : string) (kit : Kit) : Prop :=
  (query = "" ∨ occurs_in (JS.toLowerCase query) (JS.toLowerCase (kit_name kit))
   ∨ ∃ inst, inst ∈ availableInstruments kit ∧ occurs_in (JS.toLowerCase query) inst) ∧
  (filter_ = "complete" → completeness kit = Qc_of_Z 100) ∧
  (filter_ = "incomplete" → (completeness kit < Qc_of_Z 100)%Qc).

(** The order that a sort key of the catalog asks for; any order for an
    unknown key. *)
Definition sorted_for (localeCompare : string → string → comparison)
    (sortBy : string) (kits : list Kit) : Prop :=
  match sort_comparator localeCompare sortBy with
  | Some compareFn => Sorted (ordered_by compareFn) kits
  | None => True
  end.

(** A configuration whose [fileExtension] is empty. *)
Definition config_no_extension : Config := {|
  cfg_instruments := cfg_instruments CONFIG;
  fileExtension := "";
  githubPagesBaseUrl := githubPagesBaseUrl CONFIG
|}.

(** What [filterSoundkits] keeps, for the query and the filter of the
    state. *)
Definition passes (state : CatalogState) (kit : Kit) : Prop :=
  (searchQuery state = ""
   ∨ matches_query (JS.toLowerCase (searchQuery state)) kit = true) ∧
  (currentFilter state = "complete" → completeness kit = Qc_of_Z 100) ∧
  (currentFilter state = "incomplete" → (completeness kit < Qc_of_Z 100)%Qc).

(** The catalog shows the kits of the manager that pass the current query
    and filter, in the order of the current sort key. *)
Definition shows_matching (localeCompare : string → string → comparison)
    (this : SoundkitManager) (state : CatalogState) : Prop :=
  allSoundkits state = getAllSoundkits this ∧
  filteredSoundkits state ≡ₚ filter (passes state) (allSoundkits state) ∧
  sorted_for localeCompare (currentSort state) (filteredSoundkits state).

(** The state of the catalog after a sequence of events. *)
Definition after_events (localeCompare : string → string → comparison)
    (this : SoundkitManager) (events : list Event) : CatalogState :=
  foldl (λ state event, handle localeCompare event state)
        (initializeCatalog localeCompare this initial_state) events.

(** A manager that holds the Batman Begins kit. *)
Definition manager_batman : SoundkitManager := {|
  manifest := manifest_of ["kick"; "snare"] [kit_batman];
  mgr_baseUrl := "";
  samplesPath := "samples";
  maps := {|
    soundkitMap := <["batman-begins" := kit_batman]> ∅;
    soundkitsByInstrument :=
      <["kick" := ["batman-begins"]]> (<["snare" := ["batman-begins"]]> ∅)
  |}
|}.

(** * Properties *)

(** ** Examples *)

Example parseFilename_batman :
  parseFilename CONFIG "Batman Begins - kick.wav"
  = Some {| soundkitName := "Batman Begins"; instrument := "kick" |}.
Proof. reflexivity. Qed.

Example parseFilename_upper_case_tag :
  parseFilename CONFIG "TR-808 Classic  -  SNARE .wav"
  = Some {| soundkitName := "TR-808 Classic"; instrument := "snare" |}.
Proof. reflexivity. Qed.

Example parseFilename_upper_case_extension :
  parseFilename CONFIG "Batman Begins - kick.WAV" = None.
Proof. reflexivity. Qed.

Example parseFilename_unknown_tag :
  parseFilename CONFIG "Batman Begins - cowbell.wav" = None.
Proof. reflexivity. Qed.

Example generateId_examples :
  generateId "  --TR 808!! (v2)__" = "tr-808-v2" ∧ generateId "---" = "" ∧
  generateId "A B" = "a-b" ∧ generateId "A-B" = "a-b".
Proof. repeat split; reflexivity. Qed.

(** Zero files anywhere: the empty manifest. *)
Example run_no_files localeCompare now :
  let manifest := run localeCompare now CONFIG (λ _, ENOENT) in
  totalSoundkits manifest = 0%nat ∧ soundkits manifest = [] ∧
  averageCompleteness (statistics manifest) = 0%Qc.
Proof. by vm_compute. Qed.

(** ** Strings *)

Section strings.
Implicit Types s a b x : string.
#[local] Arguments String.append !_ _ / : simpl nomatch.

Lemma app_nil_r s : s +:+ "" = s.
Proof. induction s; simpl; congruence. Qed.

Lemma app_assoc a b x : (a +:+ b) +:+ x = a +:+ b +:+ x.
Proof. induction a; simpl; congruence. Qed.

Lemma length_app a b :
  String.length (a +:+ b) = (String.length a + String.length b)%nat.
Proof. induction a; simpl; congruence. Qed.

Lemma substring_0_all s : String.substring 0 (String.length s) s = s.
Proof. induction s; simpl; congruence. Qed.

Lemma substring_0_app a b :
  String.substring 0 (String.length a) (a +:+ b) = a.
Proof.
  induction a as [|c a IH]; simpl.
  - by destruct b.
  - by rewrite IH.
Qed.

Lemma substring_skip_app a b m :
  String.substring (String.length a) m (a +:+ b) = String.substring 0 m b.
Proof. induction a; simpl; auto. Qed.

Lemma substring_cut s n :
  (n ≤ String.length s)%nat →
  s = String.substring 0 n s +:+ String.substring n (String.length s - n) s.
Proof.
  revert n. induction s as [|c s IH]; intros [|n] Hn; simpl in *; try lia.
  - done.
  - by rewrite substring_0_all.
  - f_equal. apply IH. lia.
Qed.

Lemma prefix_iff x s : String.prefix x s = true ↔ ∃ b, s = x +:+ b.
Proof.
  revert s. induction x as [|c x IH]; intros s; simpl.
  - destruct s; split; eauto.
  - destruct s as [|c' s]; simpl.
    + split; [done|]. by intros [b ?].
    + destruct (ascii_dec c c') as [->|Hne].
      * rewrite IH. split; intros [b Hb]; exists b; congruence.
      * split; [done|]. intros [b Hb]. congruence.
Qed.

Lemma endsWith_iff s x : JS.endsWith s x = true ↔ has_suffix s x.
Proof.
  unfold JS.endsWith, JS.length, has_suffix. split.
  - case_match eqn:Hlt; [done|]. apply Z.ltb_ge in Hlt.
    intros Heq%String.eqb_eq.
    exists (String.substring 0 (String.length s - String.length x) s).
    pose proof (substring_cut s (String.length s - String.length x)
                  ltac:(lia)) as Hcut.
    replace (Z.to_nat (Z.of_nat (String.length s) - Z.of_nat (String.length x)))
      with (String.length s - String.length x)%nat in Heq by lia.
    replace (String.length s - (String.length s - String.length x))%nat
      with (String.length x) in Hcut by lia.
    by rewrite Heq in Hcut.
  - intros [base ->]. rewrite length_app.
    case_match eqn:Hlt; [apply Z.ltb_lt in Hlt; lia|].
    replace (Z.to_nat _) with (String.length base) by lia.
    rewrite substring_skip_app, substring_0_all. apply String.eqb_refl.
Qed.

(** The greatest index of an occurrence, as [lastIndexOf] finds it. *)
Lemma lastIndexOf_from_None pos s x :
  JS.lastIndexOf_from pos s x = None → ∀ a b, s ≠ a +:+ x +:+ b.
Proof.
  revert pos. induction s as [|c s IH]; intros pos; cbn [JS.lastIndexOf_from].
  - case_match eqn:Hp; [done|]. intros _ a b Hs.
    destruct a; [|done]. simpl in Hs.
    assert (String.prefix x "" = true) by (apply prefix_iff; eauto).
    congruence.
  - destruct (JS.lastIndexOf_from (S pos) s x) eqn:Hrec; [done|].
    case_match eqn:Hp; [done|]. intros _ a b Hs.
    destruct a as [|c' a]; simpl in Hs.
    + assert (String.prefix x (String c s) = true) by (apply prefix_iff; eauto).
      congruence.
    + injection Hs as -> Hs. by eapply IH.
Qed.

Lemma lastIndexOf_from_Some pos s x i :
  JS.lastIndexOf_from pos s x = Some i →
  ∃ a b, s = a +:+ x +:+ b ∧ i = (pos + String.length a)%nat ∧
    ∀ a' b', s = a' +:+ x +:+ b' → (String.length a' ≤ String.length a)%nat.
Proof.
  revert pos i. induction s as [|c s IH]; intros pos i; cbn [JS.lastIndexOf_from].
  - case_match eqn:Hp; [|done]. intros [= <-].
    apply prefix_iff in Hp as [b Hb]. exists "", b. simpl.
    split; [done|]. split; [lia|]. intros [|??] b' Hs; simpl in *; [lia|done].
  - destruct (JS.lastIndexOf_from (S pos) s x) as [j|] eqn:Hrec.
    + intros [= <-]. destruct (IH _ _ Hrec) as (a & b & -> & -> & Hmax).
      exists (String c a), b. simpl. split; [done|]. split; [lia|].
      intros [|c' a'] b' Hs; simpl in *; [lia|].
      injection Hs as _ Hs. apply Hmax in Hs. lia.
    + case_match eqn:Hp; [|done]. intros [= <-].
      apply prefix_iff in Hp as [b Hb]. exists "", b. simpl.
      split; [done|]. split; [lia|].
      intros [|c' a'] b' Hs; simpl in *; [lia|].
      injection Hs as _ Hs. by eapply lastIndexOf_from_None in Hrec.
Qed.

Lemma lastIndexOf_absent s x :
  (∀ a b, s ≠ a +:+ x +:+ b) → JS.lastIndexOf s x = -1.
Proof.
  intros Hno. unfold JS.lastIndexOf.
  destruct (JS.lastIndexOf_from 0 s x) eqn:Hl; [|done].
  apply lastIndexOf_from_Some in Hl as (a & b & ? & _). by destruct (Hno a b).
Qed.

Lemma lastIndexOf_last a b x :
  (∀ a' b', a +:+ x +:+ b = a' +:+ x +:+ b' →
            (String.length a' ≤ String.length a)%nat) →
  JS.lastIndexOf (a +:+ x +:+ b) x = Z.of_nat (String.length a).
Proof.
  intros Hmax. unfold JS.lastIndexOf.
  destruct (JS.lastIndexOf_from 0 (a +:+ x +:+ b) x) as [i|] eqn:Hl.
  - apply lastIndexOf_from_Some in Hl as (a0 & b0 & Hs & -> & Hmax0).
    apply Hmax in Hs as ?. specialize (Hmax0 a b eq_refl). f_equal. lia.
  - by eapply lastIndexOf_from_None in Hl.
Qed.

Lemma slice_off_suffix base x :
  x ≠ "" → JS.slice (base +:+ x) 0 (- JS.length x) = base.
Proof.
  intros Hx. unfold JS.slice, JS.relative, JS.length. rewrite length_app.
  assert (0 < String.length x)%nat by (destruct x; simpl; [done|lia]).
  change (0 <? 0) with false. cbv iota.
  rewrite (proj2 (Z.ltb_lt (- Z.of_nat (String.length x)) 0)) by lia.
  replace (Z.to_nat (Z.min 0 _)) with 0%nat by lia.
  replace (Z.to_nat _) with (String.length base) by lia.
  apply substring_0_app.
Qed.

Lemma slice_off_empty s : JS.slice s 0 (- JS.length "") = "".
Proof.
  unfold JS.slice, JS.relative, JS.length.
  change (- Z.of_nat (String.length "") <? 0) with false.
  change (0 <? 0) with false. cbv iota.
  replace (Z.to_nat (Z.min 0 _)) with 0%nat by lia.
  replace (Z.to_nat _) with 0%nat by lia.
  by destruct s.
Qed.

Lemma substring2_left a b :
  JS.substring2 (a +:+ b) 0 (Z.of_nat (String.length a)) = a.
Proof.
  unfold JS.substring2, JS.clamp, JS.length. rewrite length_app.
  replace (Z.to_nat (Z.min _ _)) with 0%nat by lia.
  replace (Z.to_nat _) with (String.length a) by lia.
  apply substring_0_app.
Qed.

Lemma substring1_right a x b :
  JS.substring1 (a +:+ x +:+ b) (Z.of_nat (String.length a) + JS.length x) = b.
Proof.
  unfold JS.substring1, JS.substring2, JS.clamp, JS.length.
  rewrite <-app_assoc, (length_app (a +:+ x)), (length_app a).
  replace (Z.to_nat (Z.min _ _)) with (String.length (a +:+ x))
    by (rewrite length_app; lia).
  replace (Z.to_nat _) with (String.length b) by lia.
  rewrite substring_skip_app. apply substring_0_all.
Qed.
End strings.

(** ** [parseFilename] *)

Section parseFilename.
#[local] Arguments String.append !_ _ / : simpl nomatch.

Lemma has_separator_lastIndexOf s :
  has_separator s ↔ JS.lastIndexOf s separator ≠ -1.
Proof.
  split.
  - intros (a & b & ->). unfold JS.lastIndexOf.
    destruct (JS.lastIndexOf_from 0 _ _) eqn:Hl; [lia|].
    by eapply lastIndexOf_from_None in Hl.
  - intros Hne. destruct (JS.lastIndexOf_from 0 s separator) as [i|] eqn:Hl.
    + apply lastIndexOf_from_Some in Hl as (a & b & ? & _). by exists a, b.
    + unfold JS.lastIndexOf in Hne. by rewrite Hl in Hne.
Qed.

Lemma splits_at_last_separator_iff name tag :
  splits_at_last_separator name tag ↔
  JS.lastIndexOf (name +:+ separator +:+ tag) separator
  = Z.of_nat (String.length name).
Proof.
  split; [apply lastIndexOf_last|].
  unfold JS.lastIndexOf. intros Hi a b Hs.
  destruct (JS.lastIndexOf_from 0 _ _) as [i|] eqn:Hl; [|lia].
  apply lastIndexOf_from_Some in Hl as (a0 & b0 & _ & -> & Hmax).
  apply Hmax in Hs. lia.
Qed.

(** What [parseFilename] computes once the extension is off and the last
    separator is found. *)
Lemma parseFilename_split config name tag :
  fileExtension config ≠ "" →
  splits_at_last_separator name tag →
  parseFilename config (name +:+ separator +:+ tag +:+ fileExtension config)
  = if JS.includes (cfg_instruments config) (JS.toLowerCase (JS.trim tag))
    then Some {| soundkitName := JS.trim name;
                 instrument := JS.toLowerCase (JS.trim tag) |}
    else None.
Proof.
  intros Hext Hlast. unfold parseFilename.
  assert (name +:+ separator +:+ tag +:+ fileExtension config
          = (name +:+ separator +:+ tag) +:+ fileExtension config) as ->
    by by rewrite !app_assoc.
  rewrite (proj2 (endsWith_iff _ _)) by by eexists.
  cbn [negb]. rewrite slice_off_suffix by done.
  rewrite lastIndexOf_last by done.
  rewrite (proj2 (Z.eqb_neq _ _)) by lia.
  rewrite substring2_left.
  change 3 with (JS.length separator). rewrite substring1_right.
  by destruct (JS.includes _ _).
Qed.

Lemma parseFilename_empty_extension config filename :
  fileExtension config = "" → parseFilename config filename = None.
Proof.
  intros Hext. unfold parseFilename. rewrite Hext, slice_off_empty.
  by destruct (negb _).
Qed.
End parseFilename.

(** C2.  A file name [name - tag] followed by the required extension, cut
    at its last separator, whose trimmed and lower-cased tag is in the
    vocabulary, parses to the trimmed name and the trimmed, lower-cased tag;
    the required extension is any non-empty one.  In particular
    ["Weird - Kit - hihat.wav"] is cut at its last separator and yields the
    kit name ["Weird - Kit"] and the instrument ["hihat"]. *)
Theorem parseFilename_valid :
  (∀ config name tag,
     fileExtension config ≠ "" →
     splits_at_last_separator name tag →
     JS.toLowerCase (JS.trim tag) ∈ cfg_instruments config →
     parseFilename config (name +:+ separator +:+ tag +:+ fileExtension config)
     = Some {| soundkitName := JS.trim name;
               instrument := JS.toLowerCase (JS.trim tag) |}) ∧
  parseFilename CONFIG "Weird - Kit - hihat.wav"
  = Some {| soundkitName := "Weird - Kit"; instrument := "hihat" |}.
Proof.
  split; [|reflexivity].
  intros config name tag Hext Hlast Hin. rewrite parseFilename_split by done.
  unfold JS.includes. by rewrite bool_decide_eq_true_2.
Qed.

(** An upper-case tag with blanks around it, cut at the last of two
    separators. *)
Lemma parseFilename_valid_witness :
  fileExtension CONFIG ≠ "" ∧
  splits_at_last_separator "TR - 808" " SNARE " ∧
  "snare" ∈ cfg_instruments CONFIG ∧
  parseFilename CONFIG "TR - 808 -  SNARE .wav"
  = Some {| soundkitName := "TR - 808"; instrument := "snare" |}.
Proof.
  assert (fileExtension CONFIG ≠ "") as H1 by done.
  assert (splits_at_last_separator "TR - 808" " SNARE ") as H2
    by (apply splits_at_last_separator_iff; reflexivity).
  assert ("snare" ∈ cfg_instruments CONFIG) as H3
    by (apply (bool_decide_unpack _); vm_compute; exact I).
  split; [exact H1|]. split; [exact H2|]. split; [exact H3|].
  exact (proj1 parseFilename_valid CONFIG "TR - 808" " SNARE " H1 H2 H3).
Defined.

(** C3.  A file name that does not end in the required extension, or whose
    stem has no separator, or whose trimmed, lower-cased last segment is
    not in the vocabulary, is rejected: [parseFilename] returns [null].
    The function is total: no input makes it throw. *)
Theorem parseFilename_rejects config filename :
  ¬ has_suffix filename (fileExtension config)
  ∨ (∃ stem, filename = stem +:+ fileExtension config ∧ ¬ has_separator stem)
  ∨ (∃ name tag,
       filename = name +:+ separator +:+ tag +:+ fileExtension config ∧
       splits_at_last_separator name tag ∧
       JS.toLowerCase (JS.trim tag) ∉ cfg_instruments config) →
  parseFilename config filename = None.
Proof.
  destruct (decide (fileExtension config = "")) as [Hext|Hext];
    [intros _; by apply parseFilename_empty_extension|].
  intros [Hsuffix|[(stem & -> & Hsep)|(name & tag & -> & Hlast & Hin)]].
  - unfold parseFilename.
    destruct (JS.endsWith _ _) eqn:He; [|done].
    by apply endsWith_iff in He.
  - unfold parseFilename.
    rewrite (proj2 (endsWith_iff _ _)) by by eexists.
    cbn [negb]. rewrite slice_off_suffix by done.
    rewrite has_separator_lastIndexOf in Hsep.
    destruct (JS.lastIndexOf stem " - " =? -1) eqn:Hi; [done|].
    apply Z.eqb_neq in Hi. by destruct Hsep.
  - rewrite parseFilename_split by done.
    unfold JS.includes. by rewrite bool_decide_eq_false_2.
Qed.

(** ["Odd File.wav"] has no separator. *)
Lemma parseFilename_rejects_witness :
  parseFilename CONFIG "Odd File.wav" = None.
Proof.
  apply parseFilename_rejects. right. left. exists "Odd File".
  split; [reflexivity|].
  rewrite has_separator_lastIndexOf. vm_compute. intros H. apply H. reflexivity.
Defined.

(** ** [generateId] *)

Section generateId.
#[local] Arguments String.append !_ _ / : simpl nomatch.

Lemma collapse_cons r runs :
  collapse (r :: runs) = collapse_run r +:+ collapse runs.
Proof.
  unfold collapse. destruct runs as [|r' runs]; simpl.
  - by rewrite app_nil_r.
  - done.
Qed.

(** The runs really are a partition of the string into non-empty pieces of
    alternating class. *)
Lemma maximal_runs_concat s : String.concat "" (snd <$> maximal_runs s) = s.
Proof.
  induction s as [|c s IH]; [done|]. cbn [maximal_runs].
  destruct (maximal_runs s) as [|[k' r] rest]; [by simplify_eq/=|].
  change (String.concat "" (snd <$> (k', r) :: rest))
    with (String.concat "" (r :: (snd <$> rest))) in IH.
  destruct (Bool.eqb _ _);
    [change (String.concat "" (String c r :: (snd <$> rest)) = String c s)
    |change (String.concat "" (String c "" :: r :: (snd <$> rest)) = String c s)];
    destruct rest; simplify_eq/=; done.
Qed.

Lemma maximal_runs_alternate s :
  ∀ i k1 r1 k2 r2,
    maximal_runs s !! i = Some (k1, r1) →
    maximal_runs s !! S i = Some (k2, r2) → k1 ≠ k2.
Proof.
  induction s as [|c s IH]; [done|]. cbn [maximal_runs].
  destruct (maximal_runs s) as [|[k' r] rest] eqn:Hs; [by intros [|?]|].
  destruct (Bool.eqb _ _) eqn:Hk.
  - apply Bool.eqb_prop in Hk.
    intros [|i] k1 r1 k2 r2 H1 H2.
    + injection H1 as <- <-. rewrite Hk. by eapply (IH 0%nat).
    + by eapply (IH (S i)).
  - apply Bool.eqb_false_iff in Hk.
    intros [|i] k1 r1 k2 r2 H1 H2.
    + injection H1 as <- <-. injection H2 as <- <-. done.
    + by eapply (IH i).
Qed.

Lemma maximal_runs_class s k r :
  (k, r) ∈ maximal_runs s →
  r ≠ "" ∧ ∀ i c, String.get i r = Some c → is_lower_or_digit c = k.
Proof.
  revert k r. induction s as [|c0 s IH]; intros k r Hin.
  { by apply elem_of_nil in Hin. }
  cbn [maximal_runs] in Hin.
  destruct (maximal_runs s) as [|[k' r'] rest] eqn:Hs.
  - apply list_elem_of_singleton in Hin. injection Hin as -> ->.
    split; [done|]. intros [|i] c Hc; [by injection Hc as <-|done].
  - destruct (IH k' r') as [_ Hr']; [left|].
    destruct (Bool.eqb _ _) eqn:Hk.
    + apply Bool.eqb_prop in Hk.
      apply elem_of_cons in Hin as [Hin|Hin].
      * injection Hin as -> ->. split; [done|].
        intros [|i] c Hc; [by injection Hc as <-|].
        rewrite Hk. by eapply Hr'.
      * apply IH. by right.
    + apply elem_of_cons in Hin as [Hin|Hin].
      * injection Hin as -> ->. split; [done|].
        intros [|i] c Hc; [by injection Hc as <-|done].
      * by apply IH.
Qed.

Lemma replace_runs_collapse s :
  replace_runs false s = collapse (maximal_runs s) ∧
  replace_runs true s =
    match maximal_runs s with
    | (false, _) :: rest => collapse rest
    | runs => collapse runs
    end.
Proof.
  induction s as [|c s [IHf IHt]]; [done|].
  cbn [replace_runs maximal_runs].
  destruct (is_lower_or_digit c) eqn:Hc.
  - rewrite IHf.
    destruct (maximal_runs s) as [|[[] r] rest]; cbn [Bool.eqb];
      rewrite ?collapse_cons; done.
  - rewrite IHt.
    destruct (maximal_runs s) as [|[[] r] rest]; cbn [Bool.eqb];
      rewrite ?collapse_cons; done.
Qed.

Lemma strip_start_hyphen_spec s : strip_start_hyphen s = strip_leading s.
Proof.
  unfold strip_leading. destruct s as [|c s]; [done|].
  destruct (decide (c = "-"%char)) as [->|Hc].
  - simpl. rewrite Nat.sub_0_r, substring_0_all. by destruct s.
  - assert (String.prefix "-" (String c s) = false) as ->.
    { destruct (String.prefix _ _) eqn:Hp; [|done].
      apply prefix_iff in Hp as [b Hb]. simpl in Hb. congruence. }
    by destruct c as [[][][][][][][][]].
Qed.

Lemma strip_end_hyphen_suffix s : strip_end_hyphen (s +:+ "-") = s.
Proof.
  induction s as [|c s IH]; [done|].
  change (String c s +:+ "-") with (String c (s +:+ "-")).
  cbn [strip_end_hyphen]. rewrite IH. by destruct s.
Qed.

Lemma strip_end_hyphen_other s :
  ¬ has_suffix s "-" → strip_end_hyphen s = s.
Proof.
  induction s as [|c s IH]; [done|]. intros Hs. cbn [strip_end_hyphen].
  destruct s as [|c' s].
  - destruct (Ascii.eqb_spec c "-") as [->|]; [|done].
    destruct Hs. by exists "".
  - rewrite IH; [done|]. intros [base Hb]. destruct Hs.
    exists (String c base). simpl. by rewrite <-Hb.
Qed.

Lemma strip_end_hyphen_spec s : strip_end_hyphen s = strip_trailing s.
Proof.
  unfold strip_trailing. destruct (JS.endsWith s "-") eqn:He.
  - apply endsWith_iff in He as [base ->].
    rewrite strip_end_hyphen_suffix, length_app. simpl.
    replace (String.length base + 1 - 1)%nat with (String.length base) by lia.
    by rewrite substring_0_app.
  - apply strip_end_hyphen_other. intros Hs%endsWith_iff. congruence.
Qed.
End generateId.

(** C6.  The id is the slug of the name: the name in lower case, every
    maximal run of characters outside [[a-z0-9]] replaced by one hyphen, a
    leading and a trailing hyphen stripped; ["Batman Begins"] gives
    ["batman-begins"]. *)
Theorem generateId_slug :
  (∀ name, generateId name = slug name) ∧
  generateId "Batman Begins" = "batman-begins".
Proof.
  split; [|reflexivity]. intros name. unfold generateId, slug.
  rewrite strip_end_hyphen_spec, strip_start_hyphen_spec.
  by rewrite (proj1 (replace_runs_collapse _)).
Qed.


(** ** [Array.prototype.sort] *)

Section js_sort_properties.
Context {A : Type} (compareFn : A → A → comparison).

Lemma sort_insert_Permutation x l : sort_insert compareFn x l ≡ₚ x :: l.
Proof.
  induction l as [|y l IH]; simpl; [done|].
  destruct (compareFn x y); try done.
  rewrite IH. apply Permutation_swap.
Qed.

Lemma js_sort_Permutation l : js_sort compareFn l ≡ₚ l.
Proof.
  induction l as [|x l IH]; simpl; [done|].
  by rewrite sort_insert_Permutation, IH.
Qed.

Lemma elem_of_js_sort x l : x ∈ js_sort compareFn l ↔ x ∈ l.
Proof. by rewrite js_sort_Permutation. Qed.

Lemma length_js_sort l : List.length (js_sort compareFn l) = List.length l.
Proof. by rewrite js_sort_Permutation. Qed.

Lemma HdRel_sort_insert x y l :
  ordered_by compareFn y x →
  HdRel (ordered_by compareFn) y l →
  HdRel (ordered_by compareFn) y (sort_insert compareFn x l).
Proof.
  intros Hyx Hl. destruct l as [|z l]; simpl; [by constructor|].
  inversion_clear Hl. destruct (compareFn x z); by constructor.
Qed.

Lemma Sorted_sort_insert x l :
  (∀ x y, compareFn x y = Gt → compareFn y x ≠ Gt) →
  Sorted (ordered_by compareFn) l →
  Sorted (ordered_by compareFn) (sort_insert compareFn x l).
Proof.
  intros Htotal. induction 1 as [|y l Hl IH Hhd]; simpl.
  - by repeat constructor.
  - destruct (compareFn x y) eqn:Hxy.
    + repeat constructor; [done..|]. unfold ordered_by. congruence.
    + repeat constructor; [done..|]. unfold ordered_by. congruence.
    + constructor; [done|]. apply HdRel_sort_insert; [|done]. by apply Htotal.
Qed.

Lemma Sorted_js_sort l :
  (∀ x y, compareFn x y = Gt → compareFn y x ≠ Gt) →
  Sorted (ordered_by compareFn) (js_sort compareFn l).
Proof.
  intros Htotal. induction l as [|x l IH]; simpl; [constructor|].
  by apply Sorted_sort_insert.
Qed.

(** Stability: elements that the comparator ties keep their order. *)
Lemma filter_sort_insert (P : A → Prop) `{!∀ x, Decision (P x)} x l :
  (∀ y z, P y → P z → compareFn y z ≠ Gt) →
  filter P (sort_insert compareFn x l) = filter P (x :: l).
Proof.
  intros Htie. induction l as [|y l IH]; simpl; [done|].
  destruct (compareFn x y) eqn:Hxy; try done.
  rewrite filter_cons, IH, !filter_cons.
  destruct (decide (P x)) as [Hx|]; [|done].
  destruct (decide (P y)) as [Hy|]; [|done].
  by destruct (Htie x y Hx Hy).
Qed.

Lemma js_sort_stable (P : A → Prop) `{!∀ x, Decision (P x)} l :
  (∀ y z, P y → P z → compareFn y z ≠ Gt) →
  filter P (js_sort compareFn l) = filter P l.
Proof.
  intros Htie. induction l as [|x l IH]; simpl; [done|].
  rewrite filter_sort_insert by done. by rewrite !filter_cons, IH.
Qed.
End js_sort_properties.

(** The default order of [sort()] on strings is a total order, so the
    sorted array of a set of strings is determined by the set. *)
Lemma ordered_by_default a b : ordered_by default_compare a b ↔ String.le a b.
Proof.
  unfold ordered_by, default_compare, String.le, String.leb.
  destruct (String.compare a b); simpl; naive_solver.
Qed.

Lemma default_compare_total a b :
  default_compare a b = Gt → default_compare b a ≠ Gt.
Proof.
  intros Hab Hba. destruct (total String.le a b) as [H|H];
    apply ordered_by_default in H; by destruct H.
Qed.

Lemma Sorted_default_sort l : Sorted String.le (js_sort default_compare l).
Proof.
  pose proof (Sorted_js_sort default_compare l default_compare_total) as Hs.
  induction Hs as [|x k _ IH Hhd]; constructor; [done|].
  destruct Hhd; constructor. by apply ordered_by_default.
Qed.

Lemma NoDup_set_spread l : NoDup (set_spread l).
Proof.
  induction l as [|x l IH]; simpl; [constructor|].
  constructor; [|by apply NoDup_filter].
  rewrite list_elem_of_filter. intros [Hne _]. by apply Hne.
Qed.

Lemma elem_of_set_spread x l : x ∈ set_spread l ↔ x ∈ l.
Proof.
  induction l as [|y l IH]; simpl; [done|].
  rewrite !elem_of_cons, list_elem_of_filter, IH.
  destruct (decide (x = y)); tauto.
Qed.

Lemma sorted_set_eq l1 l2 :
  (∀ x, x ∈ l1 ↔ x ∈ l2) →
  js_sort default_compare (set_spread l1) = js_sort default_compare (set_spread l2).
Proof.
  intros Heq. apply (Sorted_unique String.le); try apply Sorted_default_sort.
  rewrite !js_sort_Permutation.
  apply NoDup_Permutation; try apply NoDup_set_spread.
  intros x. by rewrite !elem_of_set_spread.
Qed.


(** ** [scan] *)

Section scan.
Context (config : Config) (samples : SamplesDir).

Lemma scan_file_lookup i m f n :
  scan_file config i m f !! n =
  if decide (accepted config f = Some n)
  then apply_contribution n (m !! n) (i, f)
  else m !! n.
Proof.
  unfold scan_file, accepted.
  destruct (negb _ || _); [by case_decide|].
  destruct (parseFilename config f) as [[n' tag]|]; simpl; [|by try case_decide].
  case_decide as Hn.
  - injection Hn as ->. rewrite lookup_insert_eq.
    unfold apply_contribution. by destruct (m !! n).
  - rewrite lookup_insert_ne; [done|congruence].
Qed.

Lemma foldl_scan_file_lookup i files m n :
  foldl (scan_file config i) m files !! n =
  foldl (apply_contribution n) (m !! n)
        ((λ f, (i, f)) <$> filter (λ f, accepted config f = Some n) files).
Proof.
  revert m. induction files as [|f files IH]; intros m; [done|].
  cbn [foldl]. rewrite IH, scan_file_lookup, filter_cons.
  by case_decide.
Qed.

Lemma scan_dir_lookup m i n :
  scan_dir config samples m i !! n =
  foldl (apply_contribution n) (m !! n) (dir_contributions config samples n i).
Proof.
  unfold scan_dir, dir_contributions.
  destruct (samples i); [apply foldl_scan_file_lookup|done..].
Qed.

Lemma foldl_scan_dir_lookup dirs m n :
  foldl (scan_dir config samples) m dirs !! n =
  foldl (apply_contribution n) (m !! n) (contributions config samples n dirs).
Proof.
  revert m. induction dirs as [|i dirs IH]; intros m; [done|].
  unfold contributions. rewrite bind_cons, foldl_app. cbn [foldl].
  by rewrite IH, scan_dir_lookup.
Qed.

Lemma elem_of_contributions n dirs i f :
  (i, f) ∈ contributions config samples n dirs ↔
  i ∈ dirs ∧ f ∈ listing (samples i) ∧ accepted config f = Some n.
Proof.
  unfold contributions, dir_contributions.
  rewrite list_elem_of_bind. split.
  - intros (j & Hl & Hj).
    apply list_elem_of_fmap in Hl as (f' & [= -> ->] & Hf).
    apply list_elem_of_filter in Hf. tauto.
  - intros (Hi & Hf & Hacc). exists i. split; [|done].
    apply list_elem_of_fmap. exists f. split; [done|].
    by apply list_elem_of_filter.
Qed.

Lemma kit_records_new n : kit_records n [] (newSoundkit n).
Proof.
  unfold kit_records. simpl. split_and!; try done.
  - intros x. split; [by intros ?%elem_of_nil|by intros [? ?%elem_of_nil]].
  - intros i f Hin. by apply elem_of_nil in Hin.
Qed.

Lemma kit_records_default n L entry :
  entry_records n L entry → kit_records n L (default (newSoundkit n) entry).
Proof.
  destruct entry as [kit|]; simpl; [tauto|]. intros ->. apply kit_records_new.
Qed.

Lemma kit_records_record_file n L kit i f :
  kit_records n L kit → kit_records n (L ++ [(i, f)]) (record_file i f kit).
Proof.
  intros (Hname & Hid & Hc & Havail & Hpath & Hdom).
  unfold kit_records. simpl. split_and!; try done.
  - intros x. rewrite elem_of_app, list_elem_of_singleton, Havail. split.
    + intros [[f' ?]| ->]; [exists f'|exists f]; rewrite elem_of_app;
        [by left|right; by apply list_elem_of_singleton].
    + intros [f' [?|[= -> ->]%list_elem_of_singleton]%elem_of_app]; eauto.
  - intros j p. destruct (decide (i = j)) as [->|Hne].
    + rewrite lookup_insert_eq. intros [= <-]. exists f. split; [|done].
      rewrite elem_of_app. right. by apply list_elem_of_singleton.
    + rewrite lookup_insert_ne by done. intros (f' & ? & ?)%Hpath.
      exists f'. split; [|done]. rewrite elem_of_app. by left.
  - intros j f' [?|[= -> ->]%list_elem_of_singleton]%elem_of_app.
    + destruct (decide (i = j)) as [->|Hne].
      * by rewrite lookup_insert_eq.
      * rewrite lookup_insert_ne by done. eauto.
    + by rewrite lookup_insert_eq.
Qed.

Lemma entry_records_foldl n L :
  entry_records n L (foldl (apply_contribution n) None L).
Proof.
  induction L as [|[i f] L IH] using rev_ind; [done|].
  rewrite foldl_app. simpl. split; [by destruct L|].
  by apply kit_records_record_file, kit_records_default.
Qed.

(** The entry of kit [n] before the final pass of [scan]. *)
Lemma raw_entry_records n :
  entry_records n (contributions config samples n (cfg_instruments config))
    (foldl (scan_dir config samples) ∅ (cfg_instruments config) !! n).
Proof. rewrite foldl_scan_dir_lookup, lookup_empty. apply entry_records_foldl. Qed.

Lemma scan_lookup n :
  scan config samples !! n =
  finish_kit config <$>
    (foldl (scan_dir config samples) ∅ (cfg_instruments config) !! n).
Proof. unfold scan. apply lookup_fmap. Qed.
End scan.


(** ** Order-insensitivity of [scan] *)

Lemma kit_eq (k1 k2 : Kit) :
  kit_name k1 = kit_name k2 → kit_id k1 = kit_id k2 →
  kit_instruments k1 = kit_instruments k2 →
  completeness k1 = completeness k2 →
  availableInstruments k1 = availableInstruments k2 → k1 = k2.
Proof. destruct k1, k2; simpl; congruence. Qed.

Lemma accepted_reorder config order f :
  order ≡ₚ cfg_instruments config →
  accepted (reorder config order) f = accepted config f.
Proof.
  intros Hperm. unfold accepted, parseFilename, JS.includes. simpl.
  destruct (negb _ || _); [done|].
  destruct (negb (JS.endsWith _ _)); [done|].
  destruct (_ =? _); [done|].
  erewrite bool_decide_ext; [done|]. by rewrite Hperm.
Qed.

Lemma elem_of_same_listing r r' f :
  same_listing r r' → f ∈ listing r ↔ f ∈ listing r'.
Proof. destruct r, r'; simpl; try done. by intros ->. Qed.

Lemma contributes_reorder config samples order samples' n i f :
  order ≡ₚ cfg_instruments config →
  (∀ i, same_listing (samples i) (samples' i)) →
  contributes (reorder config order) samples' n i f ↔
  contributes config samples n i f.
Proof.
  intros Hperm Hsame. unfold contributes.
  rewrite accepted_reorder by done. simpl.
  by rewrite Hperm, (elem_of_same_listing _ _ _ (Hsame i)).
Qed.

Section same_contributions.
Context (config config' : Config) (n : string) (L L' : list (string * string)).
Context (Hlen : List.length (cfg_instruments config')
                = List.length (cfg_instruments config)).
Context (HL : ∀ c, c ∈ L' ↔ c ∈ L).

Lemma entry_records_None entry entry' :
  entry_records n L entry → entry_records n L' entry' →
  entry = None ↔ entry' = None.
Proof.
  destruct entry as [kit|], entry' as [kit'|]; simpl; try done.
  - intros [HL0 _] ->. destruct L as [|c ?]; [done|].
    assert (c ∈ []) as H by (apply HL; left). by apply elem_of_nil in H.
  - intros -> [HL0 _]. destruct L' as [|c ?]; [done|].
    assert (c ∈ []) as H by (apply HL; left). by apply elem_of_nil in H.
Qed.

Lemma finish_kit_available kit kit' :
  kit_records n L kit → kit_records n L' kit' →
  availableInstruments (finish_kit config' kit')
  = availableInstruments (finish_kit config kit).
Proof.
  intros (_ & _ & _ & Ha & _) (_ & _ & _ & Ha' & _). simpl.
  apply sorted_set_eq. intros x. rewrite Ha, Ha'.
  split; intros [f Hf]; exists f; by apply HL.
Qed.

Lemma finish_kit_outline kit kit' :
  kit_records n L kit → kit_records n L' kit' →
  outline (finish_kit config' kit') = outline (finish_kit config kit).
Proof.
  intros Hk Hk'. pose proof (finish_kit_available _ _ Hk Hk') as Ha.
  destruct Hk as (Hn & Hi & _ & _ & Hp & Hd).
  destruct Hk' as (Hn' & Hi' & _ & _ & Hp' & Hd').
  unfold outline. rewrite Ha. simpl in *. rewrite Ha, Hlen, Hn, Hn', Hi, Hi'.
  do 3 f_equal. apply set_eq. intros i. rewrite !elem_of_dom. split.
  - intros [p (f & Hf%HL & _)%Hp']. eauto.
  - intros [p (f & Hf%HL & _)%Hp]. eauto.
Qed.

Lemma finish_kit_eq kit kit' :
  (∀ i f f', (i, f) ∈ L → (i, f') ∈ L → f = f') →
  kit_records n L kit → kit_records n L' kit' →
  finish_kit config' kit' = finish_kit config kit.
Proof.
  intros Huniq Hk Hk'. pose proof (finish_kit_available _ _ Hk Hk') as Ha.
  destruct Hk as (Hn & Hi & _ & _ & Hp & Hd).
  destruct Hk' as (Hn' & Hi' & _ & _ & Hp' & Hd').
  apply kit_eq; simpl in *; try congruence.
  apply map_eq. intros i. apply option_eq. intros p. split.
  - intros (f' & Hf'%HL & ->)%Hp'. destruct (Hd _ _ Hf') as [p Hi0].
    rewrite Hi0. destruct (Hp _ _ Hi0) as (f & Hf & ->).
    by rewrite (Huniq _ _ _ Hf Hf').
  - intros (f & Hf & ->)%Hp. pose proof (proj2 (HL _) Hf) as Hf'.
    destruct (Hd' _ _ Hf') as [p Hi0].
    rewrite Hi0. destruct (Hp' _ _ Hi0) as (f' & Hf2%HL & ->).
    by rewrite (Huniq _ _ _ Hf Hf2).
Qed.
End same_contributions.

(** C1, as amended.  Let the subdirectories be scanned in any order and
    each listing be given in any order.  The aggregation then yields the
    same kit names, each with the same id, the same availableInstruments,
    the same completeness and the same instrument tags in its instruments
    mapping; and when no subdirectory holds two files filed under one kit,
    it yields the same mapping from kit name to kit record, paths
    included. *)
Theorem scan_order_insensitive config samples order samples' :
  order ≡ₚ cfg_instruments config →
  (∀ i, same_listing (samples i) (samples' i)) →
  outline <$> scan (reorder config order) samples' = outline <$> scan config samples
  ∧ (one_file_per_kit config samples →
     scan (reorder config order) samples' = scan config samples).
Proof.
  intros Hperm Hsame.
  assert (∀ n c,
    c ∈ contributions (reorder config order) samples' n order ↔
    c ∈ contributions config samples n (cfg_instruments config)) as HL.
  { intros n [i f]. rewrite !elem_of_contributions.
    apply (contributes_reorder config samples order samples' n i f Hperm Hsame). }
  assert (List.length (cfg_instruments (reorder config order))
          = List.length (cfg_instruments config)) as Hlen
    by (simpl; by rewrite Hperm).
  split.
  - apply map_eq. intros n. rewrite !lookup_fmap, !scan_lookup.
    pose proof (raw_entry_records config samples n) as Hr.
    pose proof (raw_entry_records (reorder config order) samples' n) as Hr'.
    simpl in Hr'.
    pose proof (entry_records_None n _ _ (HL n) _ _ Hr Hr') as Hnone.
    destruct (foldl (scan_dir config samples) _ _ !! n) as [kit|],
      (foldl (scan_dir (reorder config order) samples') _ _ !! n) as [kit'|];
      simpl; try done.
    + f_equal. destruct Hr as [_ Hr], Hr' as [_ Hr'].
      by apply (finish_kit_outline config (reorder config order) n _ _ Hlen (HL n)).
    + by pose proof (proj2 Hnone eq_refl).
    + by pose proof (proj1 Hnone eq_refl).
  - intros Hone. apply map_eq. intros n. rewrite !scan_lookup.
    pose proof (raw_entry_records config samples n) as Hr.
    pose proof (raw_entry_records (reorder config order) samples' n) as Hr'.
    simpl in Hr'.
    pose proof (entry_records_None n _ _ (HL n) _ _ Hr Hr') as Hnone.
    destruct (foldl (scan_dir config samples) _ _ !! n) as [kit|],
      (foldl (scan_dir (reorder config order) samples') _ _ !! n) as [kit'|];
      simpl; try done.
    + f_equal. destruct Hr as [_ Hr], Hr' as [_ Hr'].
      apply (finish_kit_eq config (reorder config order) n _ _ Hlen (HL n));
        [|done..].
      intros i f f'. rewrite !elem_of_contributions. apply Hone.
    + by pose proof (proj2 Hnone eq_refl).
    + by pose proof (proj1 Hnone eq_refl).
Qed.

(** C1 as stated fails: [kick/] holds two files filed under kit [A], and the
    one listed last provides the path. *)
Lemma scan_order_sensitive :
  (∀ i, same_listing (samples_twins i) (samples_twins_rev i)) ∧
  scan CONFIG samples_twins !! "A" ≫= (λ kit, kit_instruments kit !! "kick")
  = Some "kick/A  - kick.wav" ∧
  scan CONFIG samples_twins_rev !! "A" ≫= (λ kit, kit_instruments kit !! "kick")
  = Some "kick/A - kick.wav" ∧
  scan CONFIG samples_twins_rev ≠ scan CONFIG samples_twins.
Proof.
  assert (scan CONFIG samples_twins !! "A"
            ≫= (λ kit, kit_instruments kit !! "kick")
          = Some "kick/A  - kick.wav") as H1 by (vm_compute; reflexivity).
  assert (scan CONFIG samples_twins_rev !! "A"
            ≫= (λ kit, kit_instruments kit !! "kick")
          = Some "kick/A - kick.wav") as H2 by (vm_compute; reflexivity).
  split_and!; [|done..|].
  - intros i. unfold samples_twins, samples_twins_rev.
    case_decide; simpl; [apply Permutation_swap|done].
  - intros Heq. rewrite Heq, H1 in H2. discriminate.
Qed.

Lemma one_file_per_kit_two_kits : one_file_per_kit CONFIG samples_two_kits.
Proof.
  intros n i f f' (_ & Hf & Hn) (_ & Hf' & Hn'). revert Hf Hf'.
  unfold samples_two_kits. repeat case_decide; simpl;
    rewrite ?elem_of_cons, ?elem_of_nil; intros Hf Hf';
    destruct_or?; simplify_eq; try done;
    vm_compute in Hn; vm_compute in Hn'; congruence.
Qed.

Lemma scan_order_insensitive_witness :
  reverse (cfg_instruments CONFIG) ≡ₚ cfg_instruments CONFIG ∧
  (∀ i, same_listing (samples_two_kits i) (samples_two_kits_rev i)) ∧
  outline <$> scan (reorder CONFIG (reverse (cfg_instruments CONFIG)))
                   samples_two_kits_rev
  = outline <$> scan CONFIG samples_two_kits ∧
  scan (reorder CONFIG (reverse (cfg_instruments CONFIG))) samples_two_kits_rev
  = scan CONFIG samples_two_kits.
Proof.
  assert (reverse (cfg_instruments CONFIG) ≡ₚ cfg_instruments CONFIG) as H1
    by apply reverse_Permutation.
  assert (∀ i, same_listing (samples_two_kits i) (samples_two_kits_rev i)) as H2.
  { intros i. unfold samples_two_kits, samples_two_kits_rev.
    repeat case_decide; simpl; [apply Permutation_swap|done..]. }
  destruct (scan_order_insensitive CONFIG samples_two_kits
              (reverse (cfg_instruments CONFIG)) samples_two_kits_rev H1 H2)
    as [H3 H4].
  split; [exact H1|]. split; [exact H2|]. split; [exact H3|].
  exact (H4 one_file_per_kit_two_kits).
Defined.

(** ** Completeness *)

Section percentage.
Local Open Scope Qc_scope.

Lemma Qc_of_nat_pos n : (0 < n)%nat → 0 < Qc_of_Z (Z.of_nat n).
Proof.
  intros. rewrite <-Z2Qc_inj_0. apply (proj1 (Z2Qc_inj_lt 0 (Z.of_nat n))). lia.
Qed.

Lemma hundred_pos : 0 < Qc_of_Z 100.
Proof. rewrite <-Z2Qc_inj_0. by apply (proj1 (Z2Qc_inj_lt 0 100)). Qed.

(** The ratio [k / n] of two counts. *)
Lemma ratio_bounds k n :
  (k ≤ n)%nat → (0 < n)%nat →
  0 ≤ Qc_of_Z (Z.of_nat k) / Qc_of_Z (Z.of_nat n) ≤ 1.
Proof.
  intros Hkn Hn. pose proof (Qc_of_nat_pos n Hn) as HN. split.
  - apply Qcmult_nonneg_nonneg.
    + rewrite <-Z2Qc_inj_0. apply (proj1 (Z2Qc_inj_le 0 (Z.of_nat k))). lia.
    + by apply Qclt_le_weak, Qcinv_pos.
  - apply (Qcmult_le_mono_pos_l _ _ _ HN).
    rewrite Qcmult_div_r, Qcmult_1_r by by apply Qclt_not_eq in HN.
    apply (proj1 (Z2Qc_inj_le (Z.of_nat k) (Z.of_nat n))). lia.
Qed.

Lemma ratio_one k n :
  (0 < n)%nat →
  Qc_of_Z (Z.of_nat k) / Qc_of_Z (Z.of_nat n) = 1 ↔ k = n.
Proof.
  intros Hn. pose proof (Qc_of_nat_pos n Hn) as HN.
  assert (Qc_of_Z (Z.of_nat n) ≠ 0) as HN0.
  { intros H0. rewrite H0 in HN. by apply Qclt_not_eq in HN. }
  split.
  - intros Hq. apply Nat2Z.inj, Z2Qc_inj.
    rewrite <-(Qcmult_div_r (Qc_of_Z (Z.of_nat k)) _ HN0), Hq.
    apply Qcmult_1_r.
  - intros ->. by apply Qcmult_inv_r.
Qed.

Lemma percentage_bounds k n :
  (k ≤ n)%nat → (0 < n)%nat → 0 ≤ percentage k n ≤ Qc_of_Z 100.
Proof.
  intros Hkn Hn. destruct (ratio_bounds k n Hkn Hn) as [H0 H1].
  pose proof hundred_pos as H100. unfold percentage. split.
  - apply Qcmult_nonneg_nonneg; [done|by apply Qclt_le_weak].
  - rewrite <-(Qcmult_1_l (Qc_of_Z 100)) at 2.
    apply Qcmult_le_mono_nonneg_r; [by apply Qclt_le_weak|done].
Qed.

Lemma percentage_full k n :
  (0 < n)%nat → percentage k n = Qc_of_Z 100 ↔ k = n.
Proof.
  intros Hn. rewrite <-(ratio_one k n Hn). unfold percentage.
  assert (Qc_of_Z 100 ≠ 0) as H100.
  { intros H0. pose proof hundred_pos as H. rewrite H0 in H.
    by apply Qclt_not_eq in H. }
  split.
  - intros Hq. rewrite <-(Qcdiv_mult_l (_ / _) _ H100), Hq.
    by apply Qcmult_inv_r.
  - intros ->. apply Qcmult_1_l.
Qed.
End percentage.

Section scanned_kit.
Context (config : Config) (samples : SamplesDir) (n : string) (kit : Kit).
Context (Hkit : scan config samples !! n = Some kit).

Lemma scanned_kit_raw :
  ∃ raw, kit = finish_kit config raw ∧
    contributions config samples n (cfg_instruments config) ≠ [] ∧
    kit_records n (contributions config samples n (cfg_instruments config)) raw.
Proof.
  rewrite scan_lookup in Hkit.
  pose proof (raw_entry_records config samples n) as Hr.
  destruct (foldl _ _ _ !! n) as [raw|]; simplify_eq/=.
  destruct Hr. by exists raw.
Qed.

Lemma scanned_kit_name : kit_name kit = n ∧ kit_id kit = generateId n.
Proof. destruct scanned_kit_raw as (raw & -> & _ & (? & ? & _)). by simpl. Qed.

Lemma scanned_kit_completeness :
  completeness kit
  = percentage (List.length (availableInstruments kit))
               (List.length (cfg_instruments config)).
Proof. by destruct scanned_kit_raw as (raw & -> & _). Qed.

Lemma scanned_kit_sorted :
  Sorted String.le (availableInstruments kit) ∧ NoDup (availableInstruments kit).
Proof.
  destruct scanned_kit_raw as (raw & -> & _). simpl. split.
  - apply Sorted_default_sort.
  - rewrite js_sort_Permutation. apply NoDup_set_spread.
Qed.

Lemma scanned_kit_available x :
  x ∈ availableInstruments kit ↔ ∃ f, contributes config samples n x f.
Proof.
  destruct scanned_kit_raw as (raw & -> & _ & (_ & _ & _ & Ha & _)). simpl.
  rewrite elem_of_js_sort, elem_of_set_spread, Ha.
  split; intros [f Hf]; exists f; by apply elem_of_contributions.
Qed.

Lemma scanned_kit_instruments i :
  i ∈ dom (kit_instruments kit) ↔ i ∈ availableInstruments kit.
Proof.
  rewrite scanned_kit_available.
  destruct scanned_kit_raw as (raw & -> & _ & (_ & _ & _ & _ & Hp & Hd)). simpl.
  rewrite elem_of_dom. split.
  - intros [p (f & Hf%elem_of_contributions & _)%Hp]. by exists f.
  - intros [f Hf%elem_of_contributions]. eauto.
Qed.

Lemma scanned_kit_vocabulary x :
  x ∈ availableInstruments kit → x ∈ cfg_instruments config.
Proof. rewrite scanned_kit_available. by intros [f [? _]]. Qed.

Lemma scanned_kit_nonempty :
  (0 < List.length (availableInstruments kit))%nat.
Proof.
  destruct scanned_kit_raw as (raw & _ & Hne & _).
  destruct (contributions _ _ _ _) as [|[i f] L] eqn:HL; [done|].
  assert (i ∈ availableInstruments kit) as Hi.
  { apply scanned_kit_available. exists f.
    apply elem_of_contributions. rewrite HL. left. }
  destruct (availableInstruments kit); [by apply elem_of_nil in Hi|simpl; lia].
Qed.

Lemma scanned_kit_length :
  (List.length (availableInstruments kit)
   ≤ List.length (cfg_instruments config))%nat.
Proof.
  apply submseteq_length, NoDup_submseteq.
  - apply scanned_kit_sorted.
  - apply scanned_kit_vocabulary.
Qed.
End scanned_kit.


(** The Batman Begins scenario of the specification. *)
Lemma scan_batman :
  scan CONFIG samples_batman !! "Batman Begins" = Some kit_batman ∧
  completeness kit_batman = Qc_of_Z 25.
Proof. split; [by vm_compute|]. by apply Qc_is_canon. Qed.



(** ** Ids in the manifest *)

Lemma NoDup_fmap_inj_on {A B} (f : A → B) (l : list A) x y :
  NoDup (f <$> l) → x ∈ l → y ∈ l → f x = f y → x = y.
Proof.
  induction l as [|z l IH]; [by intros _ ?%elem_of_nil|].
  rewrite fmap_cons, NoDup_cons, !elem_of_cons.
  intros [Hz Hl] [->|Hx] [->|Hy] Hf; try done.
  - destruct Hz. rewrite Hf. by apply list_elem_of_fmap_2.
  - destruct Hz. rewrite <-Hf. by apply list_elem_of_fmap_2.
  - by apply IH.
Qed.

Section manifest.
Context (localeCompare : string → string → comparison) (now : string).
Context (config : Config) (samples : SamplesDir).

(** The literal empty manifest of [run] is what [generateManifest] builds
    from no kits. *)
Lemma run_generateManifest :
  run localeCompare now config samples
  = generateManifest localeCompare now config (scan config samples).
Proof.
  unfold run. case_decide as Hsize; [|done].
  apply map_size_empty_iff in Hsize. rewrite Hsize.
  unfold generateManifest. by rewrite map_to_list_empty.
Qed.

Lemma soundkits_Permutation :
  soundkits (run localeCompare now config samples) ≡ₚ (map_to_list (scan config samples)).*2.
Proof.
  rewrite run_generateManifest. unfold generateManifest. cbn [soundkits].
  apply js_sort_Permutation.
Qed.

Lemma elem_of_soundkits kit :
  kit ∈ soundkits (run localeCompare now config samples) ↔
  scan config samples !! kit_name kit = Some kit.
Proof.
  rewrite soundkits_Permutation, list_elem_of_fmap. split.
  - intros ([n kit'] & -> & Hin%elem_of_map_to_list). simpl.
    by destruct (scanned_kit_name _ _ _ _ Hin) as [-> _].
  - intros Hin. exists (kit_name kit, kit). split; [done|].
    by apply elem_of_map_to_list.
Qed.

Lemma soundkits_names :
  kit_name <$> soundkits (run localeCompare now config samples) ≡ₚ (map_to_list (scan config samples)).*1.
Proof.
  rewrite soundkits_Permutation, <-list_fmap_compose.
  rewrite (Forall_fmap_ext_1 _ fst); [done|].
  apply Forall_forall. intros [n kit] Hin%elem_of_map_to_list. simpl.
  by destruct (scanned_kit_name _ _ _ _ Hin).
Qed.

Lemma soundkits_names_NoDup : NoDup (kit_name <$> soundkits (run localeCompare now config samples)).
Proof. rewrite soundkits_names. apply NoDup_fst_map_to_list. Qed.

Lemma soundkits_id kit :
  kit ∈ soundkits (run localeCompare now config samples) → kit_id kit = generateId (kit_name kit).
Proof.
  intros Hin%elem_of_soundkits.
  by destruct (scanned_kit_name _ _ _ _ Hin) as [_ ->].
Qed.
End manifest.

(** C7, as amended.  In the manifest built from a scan, kit names are
    unique across the soundkits sequence and every id is the slug of its
    kit's name; the ids are unique exactly when no two kit names of the
    manifest have the same slug. *)
Theorem manifest_ids localeCompare now config samples :
  let manifest := run localeCompare now config samples in
  NoDup (kit_name <$> soundkits manifest) ∧
  (∀ kit, kit ∈ soundkits manifest → kit_id kit = generateId (kit_name kit)) ∧
  (NoDup (kit_id <$> soundkits manifest) ↔
   ∀ k1 k2, k1 ∈ soundkits manifest → k2 ∈ soundkits manifest →
     generateId (kit_name k1) = generateId (kit_name k2) →
     kit_name k1 = kit_name k2).
Proof.
  intros manifest.
  pose proof (soundkits_names_NoDup localeCompare now config samples) as Hnames.
  pose proof (soundkits_id localeCompare now config samples) as Hid.
  fold manifest in Hnames, Hid.
  split; [done|]. split; [done|]. split.
  - intros Hids k1 k2 H1 H2 Hslug. f_equal.
    apply (NoDup_fmap_inj_on kit_id (soundkits manifest)); try done.
    by rewrite (Hid _ H1), (Hid _ H2).
  - intros Hinj. apply NoDup_fmap_2_strong; [|by eapply NoDup_fmap_1].
    intros k1 k2 H1 H2 Hids.
    apply (NoDup_fmap_inj_on kit_name (soundkits manifest)); try done.
    apply Hinj; try done. by rewrite <-(Hid _ H1), <-(Hid _ H2).
Qed.

(** C7 as stated fails: the kits [A B] and [A-B] are distinct and both get
    the id [a-b], whatever the collation and the clock. *)
Lemma manifest_ids_collide :
  (∀ localeCompare now,
     kit_id <$> soundkits (run localeCompare now CONFIG
                             samples_same_slug)
     = ["a-b"; "a-b"]) ∧
  kit_name <$> (map_to_list (scan CONFIG samples_same_slug)).*2 = ["A-B"; "A B"] ∧
  ¬ NoDup ["a-b"; "a-b"].
Proof.
  assert (∃ k1 k2,
    (map_to_list (scan CONFIG samples_same_slug)).*2 = [k1; k2] ∧
    kit_id k1 = "a-b" ∧ kit_id k2 = "a-b" ∧
    kit_name k1 = "A-B" ∧ kit_name k2 = "A B")
    as (k1 & k2 & Hkits & Hid1 & Hid2 & Hn1 & Hn2).
  { do 2 eexists. split; [vm_compute; reflexivity|].
    split_and!; reflexivity. }
  split_and!.
  - intros localeCompare now. rewrite run_generateManifest.
    unfold generateManifest. cbn [soundkits]. rewrite Hkits. cbn [js_sort foldr sort_insert].
    destruct (localeCompare _ _); cbn [fmap list_fmap];
      by rewrite Hid1, Hid2.
  - rewrite Hkits. cbn [fmap list_fmap]. by rewrite Hn1, Hn2.
  - rewrite NoDup_cons, list_elem_of_singleton. tauto.
Qed.


(** ** The generated manifest *)

Section run_properties.
Context (localeCompare : string → string → comparison) (now : string).
Context (config : Config) (samples : SamplesDir).

(** The kits of a generated manifest list only tags of the vocabulary, and
    their stored paths are never empty. *)
Lemma run_within_vocabulary :
  within_vocabulary (cfg_instruments config)
    (soundkits (run localeCompare now config samples)).
Proof.
  intros kit x Hkit%elem_of_soundkits. by eapply scanned_kit_vocabulary.
Qed.

Lemma run_paths_nonempty kit i p :
  kit ∈ soundkits (run localeCompare now config samples) →
  kit_instruments kit !! i = Some p → p ≠ "".
Proof.
  intros Hkit%elem_of_soundkits Hp.
  destruct (scanned_kit_raw _ _ _ _ Hkit) as (raw & -> & _ & Hraw).
  destruct Hraw as (_ & _ & _ & _ & Hpath & _).
  destruct (Hpath _ _ Hp) as (f & _ & ->). by destruct i.
Qed.

Lemma totalSoundkits_length :
  totalSoundkits (run localeCompare now config samples)
  = List.length (soundkits (run localeCompare now config samples)).
Proof. by rewrite run_generateManifest. Qed.
End run_properties.

(** ** Statistics *)

Lemma number_add_swap a b c :
  number_add a (number_add b c) = number_add b (number_add a c).
Proof. destruct a, b, c; simpl; try done. f_equal. lia. Qed.

Lemma sum_values_insert (coverage : gmap string Number) x v :
  coverage !! x = None →
  sum_values (<[x := v]> coverage) = number_add v (sum_values coverage).
Proof.
  intros Hx. unfold sum_values. rewrite map_fold_insert_L; [done| |done].
  intros. apply number_add_swap.
Qed.

Lemma sum_values_delete (coverage : gmap string Number) x v :
  coverage !! x = Some v →
  sum_values coverage = number_add v (sum_values (delete x coverage)).
Proof.
  intros Hx. unfold sum_values. rewrite (map_fold_delete_L _ _ x v); [done| |done].
  intros. apply number_add_swap.
Qed.

Lemma sum_values_increment (coverage : gmap string Number) x n t :
  coverage !! x = Some (Num n) →
  sum_values coverage = Num t →
  sum_values (<[x := Num (S n)]> coverage) = Num (S t).
Proof.
  intros Hx Hsum. rewrite (sum_values_delete _ _ _ Hx) in Hsum.
  rewrite <-insert_delete_eq, sum_values_insert by apply lookup_delete_eq.
  destruct (sum_values (delete x coverage)) as [t'|]; simplify_eq/=. done.
Qed.

Lemma sum_values_zero (coverage : gmap string Number) :
  (∀ x v, coverage !! x = Some v → v = Num 0) → sum_values coverage = Num 0.
Proof.
  induction coverage as [|x v coverage Hx IH] using map_ind; intros Hall.
  - done.
  - rewrite sum_values_insert by done.
    rewrite (Hall x v) by apply lookup_insert_eq.
    rewrite IH; [done|]. intros y w Hy. apply (Hall y).
    rewrite lookup_insert_ne; [done|]. intros ->. congruence.
Qed.

Lemma foldl_insert_lookup {V} (v : V) (keys : list string)
    (m : gmap string V) (x : string) :
  foldl (λ m key, <[key := v]> m) m keys !! x
  = if decide (x ∈ keys) then Some v else m !! x.
Proof.
  revert m. induction keys as [|y l IH]; intros m; cbn [foldl].
  - case_decide as Hx; [by apply elem_of_nil in Hx|done].
  - rewrite IH. destruct (decide (x = y)) as [->|Hne].
    + rewrite lookup_insert_eq. rewrite (decide_True _ _ (list_elem_of_here _ _)).
      by case_decide.
    + rewrite lookup_insert_ne by done.
      apply decide_ext. rewrite elem_of_cons. tauto.
Qed.

Lemma foldl_sum_completeness (kits : list Kit) (a : Qc) :
  foldl (λ sum kit, sum + completeness kit)%Qc a kits
  = (a + foldr Qcplus 0 (completeness <$> kits))%Qc.
Proof.
  revert a. induction kits as [|kit kits IH]; intros a; simpl.
  - by rewrite Qcplus_0_r.
  - by rewrite IH, Qcplus_assoc.
Qed.

Section statistics.
Context (config : Config).

Lemma coverage_consistent_initial :
  coverage_consistent config {|
    totalFiles := 0;
    instrumentCoverage :=
      foldl (λ coverage inst, <[inst := Num 0]> coverage) ∅ (cfg_instruments config);
    completeSoundkits := 0;
    averageCompleteness := 0%Qc |}.
Proof.
  split; simpl.
  - intros x Hx. exists 0%nat. rewrite foldl_insert_lookup. by case_decide.
  - apply sum_values_zero. intros x v. rewrite foldl_insert_lookup.
    case_decide; [congruence|by rewrite lookup_empty].
Qed.

Lemma count_instrument_spec stats inst :
  inst ∈ cfg_instruments config →
  coverage_consistent config stats →
  coverage_consistent config (count_instrument stats inst).
Proof.
  intros Hin [Hnum Hsum]. destruct (Hnum inst Hin) as [n Hn].
  split; simpl; rewrite Hn; simpl.
  - intros x Hx. destruct (decide (inst = x)) as [->|Hne].
    + rewrite lookup_insert_eq. eauto.
    + rewrite lookup_insert_ne by done. auto.
  - by apply sum_values_increment.
Qed.

Lemma count_instruments_spec stats insts :
  (∀ x, x ∈ insts → x ∈ cfg_instruments config) →
  coverage_consistent config stats →
  let stats' := foldl count_instrument stats insts in
  coverage_consistent config stats' ∧
  totalFiles stats' = (totalFiles stats + List.length insts)%nat ∧
  completeSoundkits stats' = completeSoundkits stats.
Proof.
  revert stats. induction insts as [|inst insts IH]; intros stats Hin Hcons; simpl.
  - split; [done|]. split; [lia|done].
  - destruct (IH (count_instrument stats inst)) as (? & Ht & ?).
    + intros x Hx. apply Hin. by right.
    + apply count_instrument_spec; [|done]. apply Hin. left.
    + split; [done|]. split; [|done]. rewrite Ht. simpl. lia.
Qed.

Lemma count_kit_spec stats kit :
  (∀ x, x ∈ availableInstruments kit → x ∈ cfg_instruments config) →
  coverage_consistent config stats →
  let stats' := count_kit stats kit in
  coverage_consistent config stats' ∧
  totalFiles stats'
  = (totalFiles stats + List.length (availableInstruments kit))%nat ∧
  completeSoundkits stats'
  = (completeSoundkits stats
     + List.length (filter (λ kit, completeness kit = Qc_of_Z 100) [kit]))%nat.
Proof.
  intros Hin Hcons.
  destruct (count_instruments_spec stats _ Hin Hcons) as ([Hnum Hsum] & Ht & Hc).
  unfold count_kit. rewrite filter_cons, filter_nil.
  case_decide; simpl; (split; [done|]); (split; [done|]); rewrite Hc; simpl; lia.
Qed.

Lemma count_kits_spec stats kits :
  within_vocabulary (cfg_instruments config) kits →
  coverage_consistent config stats →
  let stats' := foldl count_kit stats kits in
  coverage_consistent config stats' ∧
  totalFiles stats'
  = (totalFiles stats
     + sum_list (List.length ∘ availableInstruments <$> kits))%nat ∧
  completeSoundkits stats'
  = (completeSoundkits stats
     + List.length (filter (λ kit, completeness kit = Qc_of_Z 100) kits))%nat.
Proof.
  revert stats. induction kits as [|kit kits IH]; intros stats Hin Hcons.
  - simpl. split; [done|]. split; lia.
  - destruct (count_kit_spec stats kit) as (Hcons' & Ht & Hc); [|done|].
    { intros x. apply Hin. left. }
    destruct (IH (count_kit stats kit)) as (? & Ht' & Hc'); [|done|].
    { intros k x Hk. apply Hin. by right. }
    cbn [foldl]. split; [done|]. rewrite Ht', Hc', Ht, Hc.
    rewrite (filter_cons _ kit kits), filter_cons, filter_nil.
    split; [rewrite fmap_cons; simpl; lia|]. case_decide; simpl; lia.
Qed.
End statistics.




(** ** The lookup maps of [SoundkitManager] *)

Section lookup_maps.
Context (vocabulary : list string).

Lemma push_id_Return id maps tag :
  lists_for vocabulary maps → tag ∈ vocabulary →
  ∃ maps', push_id id maps tag = Return maps' ∧
    lists_for vocabulary maps' ∧
    soundkitMap maps' = soundkitMap maps ∧
    ∀ tag' ids' x, soundkitsByInstrument maps' !! tag' = Some ids' → x ∈ ids' →
      x = id ∨ ∃ ids, soundkitsByInstrument maps !! tag' = Some ids ∧ x ∈ ids.
Proof.
  intros Hlists Htag. unfold push_id.
  destruct (proj2 (Hlists tag) Htag) as [ids Hids]. rewrite Hids.
  eexists. split; [done|]. simpl. split_and!; [|done|].
  - intros tag'. simpl. destruct (decide (tag = tag')) as [->|Hne].
    + rewrite lookup_insert_eq. split; [done|eauto].
    + rewrite lookup_insert_ne by done. apply Hlists.
  - intros tag' ids' x. destruct (decide (tag = tag')) as [->|Hne].
    + rewrite lookup_insert_eq. intros [= <-].
      rewrite elem_of_app, list_elem_of_singleton. intros [?|?]; eauto.
    + rewrite lookup_insert_ne by done. eauto.
Qed.

Lemma push_id_Throw id maps tag :
  lists_for vocabulary maps → tag ∉ vocabulary →
  push_id id maps tag = Throw_TypeError.
Proof.
  intros Hlists Htag. unfold push_id.
  destruct (soundkitsByInstrument maps !! tag) eqn:Hids; [|done].
  destruct Htag. apply Hlists. eauto.
Qed.

Lemma forEach_push_id_Return id tags maps :
  lists_for vocabulary maps → (∀ tag, tag ∈ tags → tag ∈ vocabulary) →
  ∃ maps', forEach (push_id id) tags maps = Return maps' ∧
    lists_for vocabulary maps' ∧
    soundkitMap maps' = soundkitMap maps ∧
    ∀ tag' ids' x, soundkitsByInstrument maps' !! tag' = Some ids' → x ∈ ids' →
      x = id ∨ ∃ ids, soundkitsByInstrument maps !! tag' = Some ids ∧ x ∈ ids.
Proof.
  revert maps. induction tags as [|tag tags IH]; intros maps Hlists Htags.
  - exists maps. split_and!; eauto.
  - destruct (push_id_Return id maps tag Hlists) as (maps1 & H1 & Hl1 & Hm1 & Hi1).
    { apply Htags. left. }
    destruct (IH maps1 Hl1) as (maps2 & H2 & Hl2 & Hm2 & Hi2).
    { intros t Ht. apply Htags. by right. }
    exists maps2. cbn [forEach]. rewrite H1. cbn [bind].
    split_and!; [done|done|congruence|].
    intros tag' ids' x Hids' Hx.
    destruct (Hi2 _ _ _ Hids' Hx) as [?|(ids1 & Hids1 & Hx1)]; [by left|].
    eapply Hi1; eauto.
Qed.

Lemma forEach_push_id_Throw id tags maps :
  lists_for vocabulary maps → (∃ tag, tag ∈ tags ∧ tag ∉ vocabulary) →
  forEach (push_id id) tags maps = Throw_TypeError.
Proof.
  revert maps. induction tags as [|tag tags IH]; intros maps Hlists (t & Ht & Hbad).
  - by apply elem_of_nil in Ht.
  - cbn [forEach]. destruct (decide (tag ∈ vocabulary)) as [Hin|Hout].
    + destruct (push_id_Return id maps tag Hlists Hin) as (maps1 & -> & Hl1 & _).
      cbn [bind]. apply IH; [done|]. exists t. split; [|done].
      apply elem_of_cons in Ht as [->|Ht]; done.
    + by rewrite push_id_Throw.
Qed.

Lemma add_soundkit_Return maps kit :
  lists_for vocabulary maps → ids_resolve maps →
  (∀ tag, tag ∈ availableInstruments kit → tag ∈ vocabulary) →
  ∃ maps', add_soundkit maps kit = Return maps' ∧
    lists_for vocabulary maps' ∧ ids_resolve maps' ∧
    soundkitMap maps' = <[kit_id kit := kit]> (soundkitMap maps).
Proof.
  intros Hlists Hres Htags. unfold add_soundkit.
  destruct (forEach_push_id_Return (kit_id kit) (availableInstruments kit)
              {| soundkitMap := <[kit_id kit := kit]> (soundkitMap maps);
                 soundkitsByInstrument := soundkitsByInstrument maps |})
    as (maps' & H1 & Hl1 & Hm1 & Hi1); [done..|].
  exists maps'. split_and!; try done.
  intros tag ids x Hids Hx. rewrite Hm1. simpl.
  destruct (Hi1 _ _ _ Hids Hx) as [->|(ids0 & Hids0 & Hx0)].
  - by rewrite lookup_insert_eq.
  - destruct (decide (kit_id kit = x)) as [->|Hne].
    + by rewrite lookup_insert_eq.
    + rewrite lookup_insert_ne by done. by eapply Hres.
Qed.

Lemma forEach_add_soundkit_Return kits maps :
  lists_for vocabulary maps → ids_resolve maps →
  within_vocabulary vocabulary kits →
  ∃ maps', forEach add_soundkit kits maps = Return maps' ∧
    lists_for vocabulary maps' ∧ ids_resolve maps' ∧
    ∀ id, soundkitMap maps' !! id
          = match kit_with_id kits id with
            | Some kit => Some kit
            | None => soundkitMap maps !! id
            end.
Proof.
  revert maps. induction kits as [|kit kits IH]; intros maps Hlists Hres Hin.
  - exists maps. split_and!; eauto.
  - destruct (add_soundkit_Return maps kit Hlists Hres)
      as (maps1 & H1 & Hl1 & Hr1 & Hm1).
    { intros tag. apply Hin. left. }
    destruct (IH maps1 Hl1 Hr1) as (maps2 & H2 & Hl2 & Hr2 & Hm2).
    { intros k x Hk. apply Hin. by right. }
    exists maps2. cbn [forEach]. rewrite H1. cbn [bind].
    split_and!; try done. intros id. rewrite Hm2, Hm1.
    unfold kit_with_id. rewrite filter_cons.
    destruct (decide (kit_id kit = id)) as [->|Hne].
    + rewrite last_cons, lookup_insert_eq. by destruct (last _).
    + rewrite lookup_insert_ne by done. done.
Qed.

Lemma forEach_add_soundkit_Throw kits maps :
  lists_for vocabulary maps → ids_resolve maps →
  ¬ within_vocabulary vocabulary kits →
  forEach add_soundkit kits maps = Throw_TypeError.
Proof.
  revert maps. induction kits as [|kit kits IH]; intros maps Hlists Hres Hout.
  - destruct Hout. by intros kit x ?%elem_of_nil.
  - cbn [forEach].
    destruct (decide (Forall (λ tag, tag ∈ vocabulary) (availableInstruments kit)))
      as [Hkit|Hkit].
    + rewrite Forall_forall in Hkit.
      destruct (add_soundkit_Return maps kit Hlists Hres Hkit)
        as (maps1 & -> & Hl1 & Hr1 & _).
      cbn [bind]. apply IH; [done..|]. intros Hin. apply Hout.
      intros k x [->|Hk]%elem_of_cons; [apply Hkit|by apply Hin].
    + apply not_Forall_Exists in Hkit; [|apply _].
      apply Exists_exists in Hkit as (tag & Htag & Hbad).
      unfold add_soundkit. rewrite forEach_push_id_Throw; [done|done|].
      by exists tag.
Qed.
End lookup_maps.

Lemma lists_for_initial vocabulary :
  lists_for vocabulary {|
    soundkitMap := ∅;
    soundkitsByInstrument :=
      foldl (λ byInstrument instrument, <[instrument := []]> byInstrument)
            ∅ vocabulary |}.
Proof.
  intros tag. simpl. rewrite foldl_insert_lookup.
  case_decide; [by split; eauto|]. rewrite lookup_empty.
  split; [by intros [? ?]|done].
Qed.

Lemma buildLookupMaps_Return manifest :
  within_vocabulary (manifest_instruments manifest) (soundkits manifest) →
  ∃ maps, _buildLookupMaps manifest = Return maps ∧ ids_resolve maps ∧
    ∀ id, soundkitMap maps !! id = kit_with_id (soundkits manifest) id.
Proof.
  intros Hin. unfold _buildLookupMaps.
  destruct (forEach_add_soundkit_Return (manifest_instruments manifest)
              (soundkits manifest) _ (lists_for_initial _))
    as (maps & H1 & _ & Hr & Hm); [|done|].
  { intros tag ids id. simpl. rewrite foldl_insert_lookup.
    case_decide; [|by rewrite lookup_empty].
    by intros [= <-] ?%elem_of_nil. }
  exists maps. split_and!; try done. intros id. rewrite Hm. simpl.
  rewrite lookup_empty. by destruct (kit_with_id _ _).
Qed.

Lemma buildLookupMaps_Throw manifest :
  ¬ within_vocabulary (manifest_instruments manifest) (soundkits manifest) →
  _buildLookupMaps manifest = Throw_TypeError.
Proof.
  intros Hout. unfold _buildLookupMaps.
  apply (forEach_add_soundkit_Throw (manifest_instruments manifest));
    [apply lists_for_initial| |done].
  intros tag ids id. simpl. rewrite foldl_insert_lookup.
  case_decide; [|by rewrite lookup_empty].
  by intros [= <-] ?%elem_of_nil.
Qed.

Lemma within_vocabulary_dec vocabulary kits :
  Decision (within_vocabulary vocabulary kits).
Proof.
  refine (cast_if (decide (Forall (λ kit,
            Forall (λ x, x ∈ vocabulary) (availableInstruments kit)) kits)));
    unfold within_vocabulary; rewrite Forall_forall in *.
  - intros kit x Hk Hx. specialize (f _ Hk). rewrite Forall_forall in f. auto.
  - intros H. apply n. intros kit Hk. apply Forall_forall. eauto.
Defined.

(** C10.  Construction throws when some kit lists a tag that
    [manifest.instruments] lacks (the list for that tag was never
    initialised); when every kit's availableInstruments is within
    [manifest.instruments], construction returns a manager in which every
    id of every per-instrument list resolves through the id map; and
    construction returns only in that case. *)
Theorem construction_spec manifestData options :
  ((∃ kit tag, kit ∈ soundkits manifestData ∧
               tag ∈ availableInstruments kit ∧
               tag ∉ manifest_instruments manifestData) →
   new_SoundkitManager manifestData options = Throw_TypeError) ∧
  (within_vocabulary (manifest_instruments manifestData) (soundkits manifestData) →
   ∃ this, new_SoundkitManager manifestData options = Return this ∧
           ids_resolve (maps this)) ∧
  (∀ this, new_SoundkitManager manifestData options = Return this →
   within_vocabulary (manifest_instruments manifestData) (soundkits manifestData)).
Proof.
  split_and!.
  - intros (kit & tag & Hkit & Htag & Hbad). unfold new_SoundkitManager.
    rewrite buildLookupMaps_Throw; [done|]. intros Hin. by eapply Hbad, Hin.
  - intros Hin. unfold new_SoundkitManager.
    destruct (buildLookupMaps_Return _ Hin) as (maps & -> & Hres & _).
    eexists. split; [done|]. done.
  - intros this. unfold new_SoundkitManager.
    destruct (within_vocabulary_dec (manifest_instruments manifestData)
                (soundkits manifestData)) as [Hin|Hout]; [done|].
    by rewrite buildLookupMaps_Throw.
Qed.

Lemma construction_spec_witness :
  new_SoundkitManager (manifest_of ["kick"] [kit_cowbell]) no_options
  = Throw_TypeError ∧
  ∃ this, new_SoundkitManager (manifest_of ["kick"; "snare"] [kit_batman]) no_options
          = Return this ∧ ids_resolve (maps this).
Proof.
  split.
  - apply (proj1 (construction_spec (manifest_of ["kick"] [kit_cowbell]) no_options)).
    exists kit_cowbell, "cowbell". split; [left|]. split; [left|].
    intros H. apply (bool_decide_pack _) in H. by vm_compute in H.
  - apply (proj1 (proj2 (construction_spec
             (manifest_of ["kick"; "snare"] [kit_batman]) no_options))).
    intros kit x ->%list_elem_of_singleton Hx. simpl in *.
    rewrite !elem_of_cons in *. tauto.
Defined.

(** ** [getSampleUrl] *)

Lemma kit_with_id_None kits id :
  kit_with_id kits id = None ↔ ∀ kit, kit ∈ kits → kit_id kit ≠ id.
Proof.
  unfold kit_with_id. rewrite last_None. split.
  - intros Hnil kit Hkit Hid.
    assert (kit ∈ filter (λ kit, kit_id kit = id) kits) as Hin
      by by apply list_elem_of_filter.
    rewrite Hnil in Hin. by apply elem_of_nil in Hin.
  - intros Hall. destruct (filter _ kits) as [|kit l] eqn:Hf; [done|].
    assert (kit ∈ filter (λ kit, kit_id kit = id) kits) as Hin
      by (rewrite Hf; left).
    apply list_elem_of_filter in Hin as [Hid Hin]. by destruct (Hall kit Hin).
Qed.

Lemma kit_with_id_Some kits id kit :
  kit_with_id kits id = Some kit → kit ∈ kits ∧ kit_id kit = id.
Proof.
  unfold kit_with_id. intros Hlast.
  assert (kit ∈ filter (λ kit, kit_id kit = id) kits) as Hin.
  { apply last_Some in Hlast as [l ->]. rewrite elem_of_app. right. left. }
  apply list_elem_of_filter in Hin. tauto.
Qed.

Lemma manager_getSoundkit manifestData options this id :
  new_SoundkitManager manifestData options = Return this →
  getSoundkit this id = kit_with_id (soundkits manifestData) id ∧
  mgr_baseUrl this
  = or_else (opt_baseUrl options) (or_else (baseUrl manifestData) "") ∧
  samplesPath this = or_else (opt_samplesPath options) "samples".
Proof.
  unfold new_SoundkitManager. intros Hnew.
  destruct (within_vocabulary_dec (manifest_instruments manifestData)
              (soundkits manifestData)) as [Hin|Hout].
  - destruct (buildLookupMaps_Return _ Hin) as (maps & Hmaps & _ & Hm).
    rewrite Hmaps in Hnew. injection Hnew as <-. unfold getSoundkit. simpl.
    by rewrite Hm.
  - by rewrite buildLookupMaps_Throw in Hnew.
Qed.




(** ** [getSoundkitsByCompleteness] *)

Lemma sign_minus_Gt (a b : Qc) : sign (a - b) = Gt ↔ (b < a)%Qc.
Proof.
  unfold sign. rewrite <-Qcgt_alt. unfold Qcminus.
  by rewrite (Qclt_minus_iff b a).
Qed.

Lemma ordered_by_completeness ascending a b :
  ordered_by (by_completeness ascending) a b ↔ in_order ascending a b.
Proof.
  unfold ordered_by, by_completeness, in_order.
  destruct ascending; rewrite sign_minus_Gt; symmetry; apply Qcle_ngt.
Qed.

Lemma by_completeness_total ascending a b :
  by_completeness ascending a b = Gt → by_completeness ascending b a ≠ Gt.
Proof.
  unfold by_completeness.
  destruct ascending; rewrite !sign_minus_Gt; intros H1 H2;
    by apply (Qclt_not_le _ _ H1), Qclt_le_weak.
Qed.

Lemma by_completeness_tie ascending (c : Qc) a b :
  completeness a = c → completeness b = c → by_completeness ascending a b ≠ Gt.
Proof.
  intros Ha Hb. unfold by_completeness.
  destruct ascending; rewrite sign_minus_Gt, Ha, Hb; apply (irreflexivity Qclt).
Qed.

Lemma Sorted_by_completeness ascending kits :
  Sorted (in_order ascending) (js_sort (by_completeness ascending) kits).
Proof.
  pose proof (Sorted_js_sort (by_completeness ascending) kits
                (by_completeness_total ascending)) as Hs.
  induction Hs as [|x k _ IH Hhd]; constructor; [done|].
  destruct Hhd; constructor. by apply ordered_by_completeness.
Qed.

(** C9.  [getSoundkitsByCompleteness] returns a new array that holds the
    kits of the manifest sorted by completeness in the requested direction;
    kits of equal completeness keep their relative order; and the array
    stored in the manifest, like every other array that existed before the
    call, is unchanged. *)
Theorem getSoundkitsByCompleteness_spec (σ : Store) soundkits ascending kits :
  σ !! soundkits = Some kits →
  ∃ result σ' sorted,
    getSoundkitsByCompleteness soundkits ascending σ = Some (result, σ') ∧
    σ' !! result = Some sorted ∧
    sorted ≡ₚ kits ∧
    Sorted (in_order ascending) sorted ∧
    (∀ c, filter (λ kit, completeness kit = c) sorted
          = filter (λ kit, completeness kit = c) kits) ∧
    result ≠ soundkits ∧
    σ' !! soundkits = Some kits ∧
    (∀ array, array ≠ result → σ' !! array = σ !! array).
Proof.
  intros Hkits. unfold getSoundkitsByCompleteness, spread, sort_in_place.
  unfold Store, Ref in *. rewrite Hkits. set (copy := fresh (dom σ)).
  assert (σ !! copy = None) as Hfresh
    by apply not_elem_of_dom, is_fresh.
  assert (copy ≠ soundkits) as Hne by (intros ->; congruence).
  rewrite lookup_insert_eq.
  exists copy, (<[copy := js_sort (by_completeness ascending) kits]> (<[copy := kits]> σ)),
    (js_sort (by_completeness ascending) kits).
  split_and!; try done.
  - apply lookup_insert_eq.
  - apply js_sort_Permutation.
  - apply Sorted_by_completeness.
  - intros c. apply js_sort_stable. intros y z. apply by_completeness_tie.
  - by rewrite !lookup_insert_ne.
  - intros array Harray. by rewrite !lookup_insert_ne.
Qed.

Lemma getSoundkitsByCompleteness_spec_witness :
  store_three !! 0%nat = Some [kit_one "X"; kit_batman; kit_one "Y"] ∧
  ∃ result σ',
    getSoundkitsByCompleteness 0%nat true store_three = Some (result, σ') ∧
    σ' !! result = Some [kit_one "X"; kit_one "Y"; kit_batman] ∧
    σ' !! 0%nat = Some [kit_one "X"; kit_batman; kit_one "Y"].
Proof.
  assert (store_three !! 0%nat = Some [kit_one "X"; kit_batman; kit_one "Y"])
    as H by reflexivity.
  split; [exact H|].
  destruct (getSoundkitsByCompleteness_spec store_three 0%nat true _ H)
    as (result & σ' & sorted & Hrun & Hres & _ & _ & _ & _ & Hkept & _).
  exists result, σ'. split; [exact Hrun|]. split; [|exact Hkept].
  rewrite Hres. f_equal.
  assert (getSoundkitsByCompleteness 0%nat true store_three
          ≫= (λ r, r.2 !! r.1)
          = Some [kit_one "X"; kit_one "Y"; kit_batman]) as Hc
    by (vm_compute; reflexivity).
  rewrite Hrun in Hc. simpl in Hc. rewrite Hres in Hc. by injection Hc.
Defined.

(** ** Trimming and lower case *)

Section trim.
#[local] Arguments String.append !_ _ / : simpl nomatch.

Lemma trimEnd_idempotent s : JS.trimEnd (JS.trimEnd s) = JS.trimEnd s.
Proof.
  induction s as [|c s IH]; [done|].
  cbn [JS.trimEnd]. destruct (JS.trimEnd s) as [|d t] eqn:E.
  - by destruct (Ascii.is_space c) eqn:Hc; cbn [JS.trimEnd]; rewrite ?Hc.
  - cbn [JS.trimEnd] in IH |- *. by rewrite IH.
Qed.

Lemma trimEnd_cons c s :
  Ascii.is_space c = false → JS.trimEnd (String c s) = String c (JS.trimEnd s).
Proof. intros Hc. cbn [JS.trimEnd]. destruct (JS.trimEnd s); by rewrite ?Hc. Qed.

Lemma trimStart_head s :
  JS.trimStart s = "" ∨
  ∃ c t, JS.trimStart s = String c t ∧ Ascii.is_space c = false.
Proof.
  induction s as [|c s IH]; [by left|].
  cbn [JS.trimStart]. destruct (Ascii.is_space c) eqn:Hc; [done|].
  right. by exists c, s.
Qed.

Lemma trim_idempotent s : JS.trim (JS.trim s) = JS.trim s.
Proof.
  unfold JS.trim. destruct (trimStart_head s) as [->|(c & t & -> & Hc)]; [done|].
  rewrite trimEnd_cons by done. cbn [JS.trimStart]. rewrite Hc.
  rewrite trimEnd_cons by done. by rewrite trimEnd_idempotent.
Qed.

Lemma lower_ascii_idempotent c : JS.lower_ascii (JS.lower_ascii c) = JS.lower_ascii c.
Proof. by destruct c as [[] [] [] [] [] [] [] []]; vm_compute. Qed.

Lemma toLowerCase_idempotent s : JS.toLowerCase (JS.toLowerCase s) = JS.toLowerCase s.
Proof.
  induction s as [|c s IH]; [done|].
  cbn [JS.toLowerCase]. by rewrite lower_ascii_idempotent, IH.
Qed.

Lemma is_space_lower c : Ascii.is_space (JS.lower_ascii c) = Ascii.is_space c.
Proof. by destruct c as [[] [] [] [] [] [] [] []]; vm_compute. Qed.

Lemma trimStart_toLowerCase s :
  JS.trimStart (JS.toLowerCase s) = JS.toLowerCase (JS.trimStart s).
Proof.
  induction s as [|c s IH]; [done|].
  cbn [JS.toLowerCase JS.trimStart]. rewrite is_space_lower.
  by destruct (Ascii.is_space c).
Qed.

Lemma trimEnd_toLowerCase s :
  JS.trimEnd (JS.toLowerCase s) = JS.toLowerCase (JS.trimEnd s).
Proof.
  induction s as [|c s IH]; [done|].
  cbn [JS.toLowerCase JS.trimEnd]. rewrite IH, is_space_lower.
  destruct (JS.trimEnd s); cbn [JS.toLowerCase]; by destruct (Ascii.is_space c).
Qed.

Lemma trim_toLowerCase s : JS.trim (JS.toLowerCase s) = JS.toLowerCase (JS.trim s).
Proof. unfold JS.trim. by rewrite trimStart_toLowerCase, trimEnd_toLowerCase. Qed.

End trim.

(** X1.  Whatever [parseFilename] accepts is normalised: the kit name has
    no white space at either end, the instrument tag is trimmed, in lower
    case and a member of the vocabulary, and the file name ends in the
    extension. *)
Theorem parseFilename_normalised config filename parsed :
  parseFilename config filename = Some parsed →
  JS.trim (soundkitName parsed) = soundkitName parsed ∧
  JS.trim (instrument parsed) = instrument parsed ∧
  JS.toLowerCase (instrument parsed) = instrument parsed ∧
  instrument parsed ∈ cfg_instruments config ∧
  has_suffix filename (fileExtension config).
Proof.
  unfold parseFilename. intros H.
  destruct (JS.endsWith filename (fileExtension config)) eqn:Hext;
    cbn [negb] in H; [|done].
  destruct (_ =? -1); [done|].
  destruct (JS.includes _ _) eqn:Hin; cbn [negb] in H; [|done].
  injection H as <-. cbn [soundkitName instrument].
  split_and!.
  - apply trim_idempotent.
  - by rewrite trim_toLowerCase, trim_idempotent.
  - apply toLowerCase_idempotent.
  - unfold JS.includes in Hin. by apply bool_decide_eq_true in Hin.
  - by apply endsWith_iff.
Qed.

Lemma parseFilename_normalised_witness :
  parseFilename CONFIG "  TR-808 Classic  -  SNARE .wav"
  = Some {| soundkitName := "TR-808 Classic"; instrument := "snare" |} ∧
  JS.trim "TR-808 Classic" = "TR-808 Classic" ∧
  "snare" ∈ cfg_instruments CONFIG.
Proof.
  assert (parseFilename CONFIG "  TR-808 Classic  -  SNARE .wav"
          = Some {| soundkitName := "TR-808 Classic"; instrument := "snare" |})
    as H by (vm_compute; reflexivity).
  split; [exact H|].
  destruct (parseFilename_normalised _ _ _ H) as (H1 & _ & _ & H2 & _).
  split; [exact H1 | exact H2].
Defined.

(** ** Well-formed ids *)

Section ids.
#[local] Arguments String.append !_ _ / : simpl nomatch.

Lemma is_lower_or_digit_hyphen : is_lower_or_digit "-" = false.
Proof. done. Qed.

Lemma is_lower_or_digit_lower c :
  is_lower_or_digit c = true → JS.lower_ascii c = c.
Proof. by destruct c as [[] [] [] [] [] [] [] []]; vm_compute. Qed.

Lemma single_hyphens_weaken b s :
  single_hyphens true s = true → single_hyphens b s = true.
Proof.
  destruct s as [|c s]; [done|]. cbn [single_hyphens].
  destruct (is_lower_or_digit c); [done|].
  rewrite andb_false_r. done.
Qed.

Lemma single_hyphens_replace_runs in_run s :
  single_hyphens in_run (replace_runs in_run s) = true.
Proof.
  revert in_run. induction s as [|c s IH]; intros in_run; [done|].
  cbn [replace_runs]. destruct (is_lower_or_digit c) eqn:Hc.
  - cbn [single_hyphens]. by rewrite Hc.
  - destruct in_run; [apply IH|].
    cbn [single_hyphens]. rewrite is_lower_or_digit_hyphen.
    by rewrite IH.
Qed.

Lemma single_hyphens_strip_start s :
  single_hyphens false s = true → single_hyphens true (strip_start_hyphen s) = true.
Proof.
  destruct s as [|c s]; [done|].
  unfold strip_start_hyphen. cbn [single_hyphens].
  destruct (is_lower_or_digit c) eqn:Hc.
  - intros H. destruct c as [[] [] [] [] [] [] [] []];
      try discriminate Hc; cbn [single_hyphens]; by rewrite ?Hc.
  - intros [[Hh _]%andb_prop H]%andb_prop.
    apply Ascii.eqb_eq in Hh as ->. done.
Qed.

Lemma single_hyphens_strip_end b s :
  single_hyphens b s = true → single_hyphens b (strip_end_hyphen s) = true.
Proof.
  revert b. induction s as [|c s IH]; intros b; [done|].
  destruct s as [|d s].
  - cbn [strip_end_hyphen]. by destruct (Ascii.eqb c "-").
  - change (strip_end_hyphen (String c (String d s)))
      with (String c (strip_end_hyphen (String d s))).
    remember (String d s) as t. cbn [single_hyphens].
    destruct (is_lower_or_digit c); [apply IH|].
    intros [H1 H2]%andb_prop. by rewrite H1, (IH _ H2).
Qed.

Lemma endsWith_cons c d s x :
  JS.endsWith (String c (String d s)) (String x "") = JS.endsWith (String d s) (String x "").
Proof.
  unfold JS.endsWith, JS.length. cbn [String.length].
  rewrite !(proj2 (Z.ltb_ge _ _)) by lia.
  replace (Z.to_nat (Z.of_nat (S (S (String.length s))) - Z.of_nat 1))
    with (S (Z.to_nat (Z.of_nat (S (String.length s)) - Z.of_nat 1))) by lia.
  done.
Qed.

Lemma endsWith_strip_end b s :
  single_hyphens b s = true → JS.endsWith (strip_end_hyphen s) "-" = false.
Proof.
  revert b. induction s as [|c s IH]; intros b; [done|].
  destruct s as [|d s].
  - cbn [strip_end_hyphen]. destruct (Ascii.eqb c "-") eqn:Hc; [done|].
    intros _. unfold JS.endsWith. cbn.
    destruct (String.eqb _ _) eqn:E; [|done].
    apply String.eqb_eq in E. injection E as ->. by rewrite Ascii.eqb_refl in Hc.
  - change (strip_end_hyphen (String c (String d s)))
      with (String c (strip_end_hyphen (String d s))).
    destruct s as [|e s].
    + cbn [strip_end_hyphen single_hyphens].
      destruct (Ascii.eqb d "-") eqn:Hd.
      * apply Ascii.eqb_eq in Hd as ->. rewrite is_lower_or_digit_hyphen.
        destruct (is_lower_or_digit c) eqn:Hc.
        -- intros _. unfold JS.endsWith. cbn.
           destruct (String.eqb _ _) eqn:E; [|done].
           apply String.eqb_eq in E. injection E as ->. done.
        -- cbn. rewrite andb_false_r. done.
      * intros H. rewrite endsWith_cons.
        unfold JS.endsWith. cbn.
        destruct (String.eqb _ _) eqn:E; [|done].
        apply String.eqb_eq in E. injection E as ->. by rewrite Ascii.eqb_refl in Hd.
    + change (strip_end_hyphen (String d (String e s)))
        with (String d (strip_end_hyphen (String e s))) in IH |- *.
      intros H.
      assert (∃ b', single_hyphens b' (String d (String e s)) = true) as [b' Hb'].
      { cbn [single_hyphens] in H. destruct (is_lower_or_digit c); [by eexists|].
        apply andb_prop in H as [_ H]. by eexists. }
      specialize (IH _ Hb').
      destruct (strip_end_hyphen (String e s)) as [|e' s'] eqn:E.
      { by destruct s. }
      by rewrite endsWith_cons.
Qed.

Lemma generateId_well_formed name : well_formed_id (generateId name) = true.
Proof.
  unfold well_formed_id, generateId.
  pose proof (single_hyphens_strip_start _
    (single_hyphens_replace_runs false (JS.toLowerCase name))) as H.
  rewrite (single_hyphens_strip_end _ _ H), (endsWith_strip_end _ _ H). done.
Qed.

Lemma toLowerCase_single_hyphens b s :
  single_hyphens b s = true → JS.toLowerCase s = s.
Proof.
  revert b. induction s as [|c s IH]; intros b; [done|].
  cbn [single_hyphens JS.toLowerCase].
  destruct (is_lower_or_digit c) eqn:Hc.
  - intros H. by rewrite (is_lower_or_digit_lower _ Hc), (IH _ H).
  - intros [[Hh _]%andb_prop H]%andb_prop.
    apply Ascii.eqb_eq in Hh as ->. by rewrite (IH _ H).
Qed.

Lemma replace_runs_single_hyphens b s :
  single_hyphens b s = true → replace_runs b s = s.
Proof.
  revert b. induction s as [|c s IH]; intros b; [done|].
  cbn [single_hyphens replace_runs].
  destruct (is_lower_or_digit c) eqn:Hc.
  - intros H. by rewrite (IH _ H).
  - intros [[Hh Hb]%andb_prop H]%andb_prop.
    apply Ascii.eqb_eq in Hh as ->. destruct b; [done|]. by rewrite (IH _ H).
Qed.

Lemma strip_start_single_hyphens s :
  single_hyphens true s = true → strip_start_hyphen s = s.
Proof.
  destruct s as [|c s]; [done|]. cbn [single_hyphens].
  destruct (is_lower_or_digit c) eqn:Hc.
  - intros _. unfold strip_start_hyphen.
    by destruct c as [[] [] [] [] [] [] [] []]; try discriminate Hc.
  - by rewrite andb_false_r.
Qed.

Lemma well_formed_id_fixed s : well_formed_id s = true → generateId s = s.
Proof.
  unfold well_formed_id, generateId. intros [H1 H2]%andb_prop.
  rewrite (toLowerCase_single_hyphens _ _ H1).
  rewrite (replace_runs_single_hyphens _ _ (single_hyphens_weaken false _ H1)).
  rewrite (strip_start_single_hyphens _ H1).
  apply strip_end_hyphen_other. intros Hs%endsWith_iff. by rewrite Hs in H2.
Qed.

Lemma single_hyphens_get b s i c :
  single_hyphens b s = true → String.get i s = Some c →
  is_lower_or_digit c = true ∨ c = "-"%char.
Proof.
  revert b i. induction s as [|d s IH]; intros b i; [done|].
  cbn [single_hyphens]. destruct i as [|i]; cbn [String.get].
  - intros H [= ->]. destruct (is_lower_or_digit c); [by left|].
    apply andb_prop in H as [[H%Ascii.eqb_eq _]%andb_prop _]. by right.
  - intros H. destruct (is_lower_or_digit d); [by apply (IH false)|].
    apply andb_prop in H as [_ H]. by apply (IH true).
Qed.

Lemma single_hyphens_no_double b s a x :
  single_hyphens b s = true → s ≠ a +:+ "--" +:+ x.
Proof.
  revert b s. induction a as [|c a IH]; intros b s H ->.
  - cbn in H. by rewrite andb_false_r in H.
  - cbn [String.append single_hyphens] in H.
    destruct (is_lower_or_digit c); [by eapply (IH false)|].
    apply andb_prop in H as [_ H]. by eapply (IH true).
Qed.

End ids.

(** X2.  Every id that [generateId] returns is made of lower-case letters,
    digits and hyphens only, neither starts nor ends with a hyphen, and
    never holds two hyphens in a row. *)
Theorem generateId_url_safe name :
  let id := generateId name in
  (∀ i c, String.get i id = Some c → is_lower_or_digit c = true ∨ c = "-"%char) ∧
  JS.startsWith id "-" = false ∧
  JS.endsWith id "-" = false ∧
  (∀ a b, id ≠ a +:+ "--" +:+ b).
Proof.
  pose proof (generateId_well_formed name) as H. cbv zeta.
  unfold well_formed_id in H. apply andb_prop in H as [H1 H2].
  split_and!.
  - intros i c. by apply single_hyphens_get with true.
  - unfold JS.startsWith. destruct (generateId name) as [|c s]; [done|].
    cbn [single_hyphens] in H1. cbn [String.prefix].
    destruct (ascii_dec "-" c) as [<-|]; [|done].
    by rewrite is_lower_or_digit_hyphen, andb_false_r in H1.
  - by destruct (JS.endsWith _ _).
  - intros a b. by apply single_hyphens_no_double with true.
Qed.

(** X3.  The ids are exactly the fixed points of [generateId]: a string is
    its own id if and only if it is well formed; so [generateId] is
    idempotent. *)
Theorem generateId_idempotent :
  (∀ s, generateId s = s ↔ well_formed_id s = true) ∧
  (∀ name, generateId (generateId name) = generateId name).
Proof.
  split.
  - intros s. split; [|apply well_formed_id_fixed].
    intros <-. apply generateId_well_formed.
  - intros name. apply well_formed_id_fixed, generateId_well_formed.
Qed.

(** ** An empty file extension *)

Lemma scan_file_rejected config i m f :
  parseFilename config f = None → scan_file config i m f = m.
Proof. intros H. unfold scan_file. rewrite H. by destruct (_ || _). Qed.

(** X4.  With an empty [fileExtension] the scanner finds nothing, whatever
    the directories hold: every file name is rejected, and the manifest
    lists no kit. *)
Theorem scan_empty_extension localeCompare now config samples :
  fileExtension config = "" →
  (∀ filename, parseFilename config filename = None) ∧
  scan config samples = ∅ ∧
  soundkits (run localeCompare now config samples) = [] ∧
  totalSoundkits (run localeCompare now config samples) = 0%nat.
Proof.
  intros Hext.
  assert (∀ filename, parseFilename config filename = None) as Hnone
    by (intros; by apply parseFilename_empty_extension).
  assert (∀ dirs m, foldl (scan_dir config samples) m dirs = m) as Hdirs.
  { induction dirs as [|i dirs IH]; intros m; [done|].
    cbn [foldl]. rewrite <- (IH m) at 2. f_equal.
    unfold scan_dir. destruct (samples i) as [files| |]; try done.
    induction files as [|f files IHf] using rev_ind; [done|].
    by rewrite foldl_snoc, scan_file_rejected, IHf by done. }
  assert (scan config samples = ∅) as Hscan.
  { unfold scan. by rewrite Hdirs, fmap_empty. }
  split_and!; [done|done| |]; unfold run; rewrite Hscan;
    rewrite decide_True by apply map_size_empty; done.
Qed.

Lemma scan_empty_extension_witness :
  fileExtension config_no_extension = "" ∧
  scan config_no_extension samples_batman = ∅.
Proof.
  split; [reflexivity|].
  apply (scan_empty_extension default_compare "" config_no_extension samples_batman).
  reflexivity.
Defined.

(** ** More on [scan] *)

Lemma parseFilename_endsWith config f parsed :
  parseFilename config f = Some parsed →
  JS.endsWith f (fileExtension config) = true.
Proof. unfold parseFilename. by destruct (JS.endsWith _ _). Qed.

Section scan_more.
Context (config : Config) (samples : SamplesDir).

Lemma accepted_Some f n :
  accepted config f = Some n ↔
  JS.startsWith f "." = false ∧
  ∃ parsed, parseFilename config f = Some parsed ∧ soundkitName parsed = n.
Proof.
  unfold accepted. split.
  - destruct (JS.endsWith f (fileExtension config)), (JS.startsWith f ".");
      cbn [negb orb]; try done.
    intros H. split; [done|].
    destruct (parseFilename config f) as [parsed|]; [|done].
    exists parsed. by injection H.
  - intros [Hdot (parsed & Hp & <-)]. rewrite Hdot.
    rewrite (parseFilename_endsWith _ _ _ Hp). by rewrite Hp.
Qed.

Lemma foldl_apply_contribution_instruments n i L entry :
  kit_instruments (default (newSoundkit n) (foldl (apply_contribution n) entry L)) !! i
  = match last (filter (λ c, c.1 = i) L) with
    | Some c => Some (c.1 +:+ "/" +:+ c.2)
    | None => kit_instruments (default (newSoundkit n) entry) !! i
    end.
Proof.
  induction L as [|c L IH] using rev_ind; [done|].
  rewrite foldl_snoc, filter_app, last_app. unfold apply_contribution at 1.
  cbn [default from_option id record_file kit_instruments].
  rewrite filter_cons, filter_nil. destruct (decide (c.1 = i)) as [<-|Hne].
  - cbn [last]. by rewrite lookup_insert_eq.
  - cbn [last]. rewrite lookup_insert_ne by done. apply IH.
Qed.

Lemma filter_dir_contributions n i j :
  filter (λ c : string * string, c.1 = i) (dir_contributions config samples n j)
  = if decide (j = i) then dir_contributions config samples n i else [].
Proof.
  unfold dir_contributions.
  destruct (decide (j = i)) as [->|Hne].
  - induction (filter _ (listing (samples i))) as [|f l IHl]; [done|].
    rewrite fmap_cons, filter_cons. cbn [fst]. rewrite IHl. by rewrite decide_True.
  - induction (filter _ (listing (samples j))) as [|f l IHl]; [done|].
    rewrite fmap_cons, filter_cons. cbn [fst]. rewrite IHl. by rewrite decide_False.
Qed.

Lemma last_contributions n i dirs :
  last (filter (λ c, c.1 = i) (contributions config samples n dirs))
  = if decide (i ∈ dirs)
    then (λ f, (i, f)) <$> last (files_of config samples n i)
    else None.
Proof.
  unfold contributions. induction dirs as [|j dirs IH].
  - rewrite decide_False by apply not_elem_of_nil. done.
  - rewrite bind_cons, filter_app, last_app, IH, filter_dir_contributions.
    unfold dir_contributions, files_of.
    destruct (decide (j = i)) as [->|Hne].
    + rewrite (decide_True (P := i ∈ i :: dirs)) by left.
      rewrite fmap_last.
      destruct (decide (i ∈ dirs)); [|done].
      by destruct (last (filter _ (listing (samples i)))).
    + destruct (decide (i ∈ dirs)) as [Hin|Hin].
      * rewrite decide_True by (by right).
        by destruct (last (filter _ (listing (samples i)))).
      * rewrite decide_False; [done|].
        intros [->|?]%elem_of_cons; done.
Qed.

Lemma scan_instruments n kit i :
  scan config samples !! n = Some kit →
  kit_instruments kit !! i
  = if decide (i ∈ cfg_instruments config)
    then (λ f, i +:+ "/" +:+ f) <$> last (files_of config samples n i)
    else None.
Proof.
  rewrite scan_lookup, foldl_scan_dir_lookup, lookup_empty.
  intros Hkit. apply fmap_Some in Hkit as (raw & Hraw & ->).
  cbn [finish_kit kit_instruments].
  pose proof (foldl_apply_contribution_instruments n i
    (contributions config samples n (cfg_instruments config)) None) as H.
  rewrite Hraw, last_contributions in H. cbn [default from_option id] in H. rewrite H.
  destruct (decide (i ∈ cfg_instruments config)); [|done].
  by destruct (last (files_of config samples n i)).
Qed.

Lemma contributions_ext samples' n dirs :
  (∀ i, i ∈ dirs → listing (samples i) = listing (samples' i)) →
  contributions config samples n dirs = contributions config samples' n dirs.
Proof.
  unfold contributions. induction dirs as [|j dirs IH]; intros H; [done|].
  rewrite !bind_cons, IH by (intros; apply H; by right).
  unfold dir_contributions. rewrite (H j) by left. done.
Qed.

End scan_more.

(** X5.  A kit is in the result of [scan] exactly when some file of the
    subdirectory of a vocabulary tag is not hidden and parses to the kit's
    name. *)
Theorem scan_kit_exists config samples n :
  is_Some (scan config samples !! n) ↔
  ∃ i f parsed, i ∈ cfg_instruments config ∧ f ∈ listing (samples i) ∧
    JS.startsWith f "." = false ∧
    parseFilename config f = Some parsed ∧ soundkitName parsed = n.
Proof.
  rewrite scan_lookup, fmap_is_Some.
  pose proof (raw_entry_records config samples n) as H.
  pose proof (elem_of_contributions config samples n (cfg_instruments config)) as Hc.
  split.
  - intros [raw Hraw]. rewrite Hraw in H. destruct H as [Hne _].
    destruct (contributions _ _ _ _) as [|[i f] L] eqn:E; [done|].
    destruct (proj1 (Hc i f)) as (Hi & Hf & Hacc); [left|].
    apply accepted_Some in Hacc as (Hdot & parsed & Hp & Hn).
    by exists i, f, parsed.
  - intros (i & f & parsed & Hi & Hf & Hdot & Hp & Hn).
    assert ((i, f) ∈ contributions config samples n (cfg_instruments config)) as Hin.
    { apply Hc. split_and!; [done..|]. apply accepted_Some. eauto. }
    destruct (foldl _ _ _ !! n) as [raw|]; [done|].
    cbn in H. rewrite H in Hin. by apply not_elem_of_nil in Hin.
Qed.



(** X7.  [scan] sees the samples directory only through the listings of the
    subdirectories of the vocabulary: a subdirectory that is missing or
    fails to read counts as an empty one, and no other subdirectory is
    read. *)
Theorem scan_reads_vocabulary_only config samples samples' :
  (∀ i, i ∈ cfg_instruments config → listing (samples i) = listing (samples' i)) →
  scan config samples = scan config samples'.
Proof.
  intros H. apply map_eq. intros n.
  rewrite !scan_lookup, !foldl_scan_dir_lookup.
  by rewrite (contributions_ext config samples samples' n _ H).
Qed.

Lemma scan_reads_vocabulary_only_witness :
  scan CONFIG samples_batman
  = scan CONFIG (λ i, if decide (i = "cowbell") then Files ["X - cowbell.wav"]
                      else Files (listing (samples_batman i))).
Proof.
  apply scan_reads_vocabulary_only.
  intros i Hi. destruct (decide (i = "cowbell")) as [->|]; [|reflexivity].
  exfalso. revert Hi. apply (bool_decide_unpack _). vm_compute. exact I.
Defined.

(** ** More on the manifest and its statistics *)

Section coverage.

Lemma count_instruments_lookup stats insts x k :
  instrumentCoverage stats !! x = Some (Num k) →
  instrumentCoverage (foldl count_instrument stats insts) !! x
  = Some (Num (k + List.length (filter (λ y, y = x) insts))).
Proof.
  revert stats k. induction insts as [|y insts IH]; intros stats k H; cbn [foldl].
  - rewrite filter_nil. cbn [List.length]. by rewrite Nat.add_0_r.
  - rewrite filter_cons. destruct (decide (y = x)) as [->|Hne].
    + rewrite (IH _ (S k)).
      * cbn [List.length]. do 2 f_equal. lia.
      * cbn [count_instrument instrumentCoverage]. by rewrite lookup_insert_eq, H.
    + apply IH. cbn [count_instrument instrumentCoverage].
      by rewrite lookup_insert_ne.
Qed.

Lemma count_instruments_lookup_None stats insts x :
  instrumentCoverage stats !! x = None → x ∉ insts →
  instrumentCoverage (foldl count_instrument stats insts) !! x = None.
Proof.
  revert stats. induction insts as [|y insts IH]; intros stats H Hx; [done|].
  cbn [foldl]. apply not_elem_of_cons in Hx as [Hne Hx]. apply IH; [|done].
  cbn [count_instrument instrumentCoverage]. by rewrite lookup_insert_ne.
Qed.

Lemma count_kit_coverage stats kit :
  instrumentCoverage (count_kit stats kit)
  = instrumentCoverage (foldl count_instrument stats (availableInstruments kit)).
Proof. unfold count_kit. by case_decide. Qed.

Lemma count_kits_lookup stats kits x k :
  instrumentCoverage stats !! x = Some (Num k) →
  instrumentCoverage (foldl count_kit stats kits) !! x
  = Some (Num (k + List.length (filter (λ y, y = x) (kits ≫= availableInstruments)))).
Proof.
  revert stats k. induction kits as [|kit kits IH]; intros stats k H; cbn [foldl].
  - cbn. by rewrite Nat.add_0_r.
  - rewrite bind_cons, filter_app, List.length_app, Nat.add_assoc.
    apply IH. rewrite count_kit_coverage. by apply count_instruments_lookup.
Qed.

Lemma count_kits_lookup_None stats kits x :
  instrumentCoverage stats !! x = None →
  (∀ kit, kit ∈ kits → x ∉ availableInstruments kit) →
  instrumentCoverage (foldl count_kit stats kits) !! x = None.
Proof.
  revert stats. induction kits as [|kit kits IH]; intros stats H Hx; [done|].
  cbn [foldl]. apply IH; [|intros; apply Hx; by right].
  rewrite count_kit_coverage. apply count_instruments_lookup_None; [done|].
  apply Hx. by left.
Qed.

Lemma length_filter_eq_NoDup (x : string) l :
  NoDup l →
  List.length (filter (λ y, y = x) l) = if decide (x ∈ l) then 1%nat else 0%nat.
Proof.
  induction 1 as [|y l Hy Hl IH]; [done|].
  rewrite filter_cons. destruct (decide (y = x)) as [->|Hne].
  - cbn [List.length]. rewrite IH, decide_False by done.
    by rewrite decide_True by left.
  - rewrite IH. destruct (decide (x ∈ l)).
    + by rewrite decide_True by (by right).
    + rewrite decide_False; [done|]. by intros [->|?]%elem_of_cons.
Qed.

Lemma length_filter_listing (x : string) (kits : list Kit) :
  (∀ kit, kit ∈ kits → NoDup (availableInstruments kit)) →
  List.length (filter (λ y, y = x) (kits ≫= availableInstruments))
  = List.length (filter (λ kit, x ∈ availableInstruments kit) kits).
Proof.
  induction kits as [|kit kits IH]; intros H; [done|].
  rewrite bind_cons, filter_app, List.length_app, filter_cons.
  rewrite IH by (intros; apply H; by right).
  rewrite length_filter_eq_NoDup by (apply H; by left).
  by destruct (decide (x ∈ availableInstruments kit)).
Qed.

End coverage.



Section run_more.
Context (localeCompare : string → string → comparison) (now : string).
Context (config : Config) (samples : SamplesDir).

Lemma run_statistics :
  statistics (run localeCompare now config samples)
  = generateStatistics config (soundkits (run localeCompare now config samples)).
Proof. by rewrite run_generateManifest. Qed.

Lemma run_instruments :
  manifest_instruments (run localeCompare now config samples) = cfg_instruments config.
Proof. by rewrite run_generateManifest. Qed.

Lemma run_NoDup_available kit :
  kit ∈ soundkits (run localeCompare now config samples) →
  NoDup (availableInstruments kit).
Proof. intros Hkit%elem_of_soundkits. by eapply scanned_kit_sorted. Qed.

Lemma run_coverage_lookup x :
  instrumentCoverage (statistics (run localeCompare now config samples)) !! x
  = if decide (x ∈ cfg_instruments config)
    then Some (Num (List.length
           (filter (λ kit, x ∈ availableInstruments kit)
                   (soundkits (run localeCompare now config samples)))))
    else None.
Proof.
  rewrite run_statistics. unfold generateStatistics. cbn [instrumentCoverage].
  case_decide as Hx.
  - rewrite (count_kits_lookup _ _ x 0).
    + by rewrite length_filter_listing by apply run_NoDup_available.
    + cbn [instrumentCoverage]. rewrite foldl_insert_lookup. by rewrite decide_True.
  - apply count_kits_lookup_None.
    + cbn [instrumentCoverage]. rewrite foldl_insert_lookup. by rewrite decide_False.
    + intros kit Hkit Hin. apply Hx. by eapply run_within_vocabulary.
Qed.

Lemma run_totalFiles :
  totalFiles (statistics (run localeCompare now config samples))
  = sum_list (List.length ∘ availableInstruments
              <$> soundkits (run localeCompare now config samples)).
Proof.
  rewrite run_statistics.
  destruct (count_kits_spec config _ _
              (run_within_vocabulary localeCompare now config samples)
              (coverage_consistent_initial config)) as (_ & Ht & _).
  exact Ht.
Qed.

Lemma run_completeSoundkits :
  completeSoundkits (statistics (run localeCompare now config samples))
  = List.length (filter (λ kit, completeness kit = Qc_of_Z 100)
                        (soundkits (run localeCompare now config samples))).
Proof.
  rewrite run_statistics.
  destruct (count_kits_spec config _ _
              (run_within_vocabulary localeCompare now config samples)
              (coverage_consistent_initial config)) as (_ & _ & Hc).
  exact Hc.
Qed.

Lemma run_completeness kit :
  kit ∈ soundkits (run localeCompare now config samples) →
  completeness kit
  = percentage (List.length (availableInstruments kit))
               (List.length (cfg_instruments config)).
Proof. intros Hkit%elem_of_soundkits. by eapply scanned_kit_completeness. Qed.

Lemma run_available_length kit :
  kit ∈ soundkits (run localeCompare now config samples) →
  (1 ≤ List.length (availableInstruments kit)
     ≤ List.length (cfg_instruments config))%nat.
Proof.
  intros Hkit%elem_of_soundkits. split.
  - by eapply scanned_kit_nonempty.
  - by eapply scanned_kit_length.
Qed.

End run_more.

Lemma sum_list_bounds (kits : list Kit) (v : nat) :
  (∀ kit, kit ∈ kits → (1 ≤ List.length (availableInstruments kit) ≤ v)%nat) →
  (List.length kits ≤ sum_list (List.length ∘ availableInstruments <$> kits)
   ≤ List.length kits * v)%nat.
Proof.
  induction kits as [|kit kits IH]; intros H; [cbn; lia|].
  rewrite fmap_cons. cbn [sum_list sum_list_with List.length compose].
  specialize (IH (λ k Hk, H k (list_elem_of_further _ _ _ Hk))).
  pose proof (H kit (list_elem_of_here _ _)). unfold compose in *.
  unfold sum_list, id in *. rewrite Nat.mul_succ_l. lia.
Qed.

Lemma sum_completeness (kits : list Kit) (v : nat) :
  (∀ kit, kit ∈ kits →
     completeness kit = percentage (List.length (availableInstruments kit)) v) →
  foldr Qcplus 0%Qc (completeness <$> kits)
  = percentage (sum_list (List.length ∘ availableInstruments <$> kits)) v.
Proof.
  induction kits as [|kit kits IH]; intros H.
  - rewrite !fmap_nil. cbn [foldr]. unfold percentage, Qcdiv.
    change (Z.of_nat (sum_list [])) with 0. rewrite Z2Qc_inj_0. ring.
  - rewrite !fmap_cons. cbn [foldr sum_list sum_list_with].
    rewrite IH by (intros; apply H; by right).
    rewrite (H kit) by left. unfold percentage, compose.
    unfold sum_list, id.
    rewrite Nat2Z.inj_add, Z2Qc_inj_add. unfold Qcdiv. ring.
Qed.


(** X10.  A generated manifest lists its kits in the order of
    [localeCompare] on their names, provided the collation never puts two
    names each after the other; [totalSoundkits] is the number of kits
    listed, which is the number of kits scanned. *)
Theorem run_manifest_sorted localeCompare now config samples :
  (∀ a b, localeCompare a b = Gt → localeCompare b a ≠ Gt) →
  let manifest := run localeCompare now config samples in
  Sorted (λ a b, localeCompare (kit_name a) (kit_name b) ≠ Gt) (soundkits manifest) ∧
  totalSoundkits manifest = List.length (soundkits manifest) ∧
  totalSoundkits manifest = size (scan config samples).
Proof.
  intros Htotal. cbv zeta. rewrite totalSoundkits_length. split_and!.
  - rewrite run_generateManifest. unfold generateManifest. cbn [soundkits].
    apply (Sorted_js_sort (λ a b, localeCompare (kit_name a) (kit_name b))).
    intros x y. apply Htotal.
  - done.
  - rewrite (soundkits_Permutation localeCompare now config samples).
    by rewrite length_fmap, length_map_to_list.
Qed.

Lemma run_manifest_sorted_witness :
  (∀ a b, default_compare a b = Gt → default_compare b a ≠ Gt) ∧
  Sorted (λ a b, default_compare (kit_name a) (kit_name b) ≠ Gt)
         (soundkits (run default_compare "" CONFIG samples_two_kits)) ∧
  totalSoundkits (run default_compare "" CONFIG samples_two_kits)
  = size (scan CONFIG samples_two_kits).
Proof.
  split; [exact default_compare_total|].
  destruct (run_manifest_sorted default_compare "" CONFIG samples_two_kits
              default_compare_total) as (H1 & _ & H3).
  split; [exact H1 | exact H3].
Defined.


(** ** More on the manager *)

Section lists.

Lemma push_id_lists id maps tag maps' :
  push_id id maps tag = Return maps' →
  soundkitMap maps' = soundkitMap maps ∧
  ∀ t, soundkitsByInstrument maps' !! t
       = (λ ids, ids ++ ((λ _, id) <$> filter (λ x, x = t) [tag]))
         <$> soundkitsByInstrument maps !! t.
Proof.
  unfold push_id. destruct (soundkitsByInstrument maps !! tag) as [ids|] eqn:E;
    [|done].
  intros [= <-]. split; [done|]. intros t. cbn [soundkitsByInstrument].
  rewrite filter_cons, filter_nil. destruct (decide (tag = t)) as [->|Hne].
  - by rewrite lookup_insert_eq, E.
  - rewrite lookup_insert_ne by done.
    destruct (soundkitsByInstrument maps !! t); [|done].
    cbn. by rewrite List.app_nil_r.
Qed.

Lemma forEach_push_id_lists id tags maps maps' :
  forEach (push_id id) tags maps = Return maps' →
  soundkitMap maps' = soundkitMap maps ∧
  ∀ t, soundkitsByInstrument maps' !! t
       = (λ ids, ids ++ ((λ _, id) <$> filter (λ x, x = t) tags))
         <$> soundkitsByInstrument maps !! t.
Proof.
  revert maps. induction tags as [|tag tags IH]; intros maps.
  - intros [= <-]. split; [done|]. intros t.
    destruct (soundkitsByInstrument maps !! t); [|done].
    cbn. by rewrite List.app_nil_r.
  - cbn [forEach]. destruct (push_id id maps tag) as [maps1|] eqn:E; [|done].
    cbn [bind]. intros H. destruct (IH _ H) as [Hm Hl].
    destruct (push_id_lists _ _ _ _ E) as [Hm1 Hl1].
    split; [congruence|]. intros t. rewrite Hl, Hl1.
    destruct (soundkitsByInstrument maps !! t) as [ids|]; [|done].
    cbn [fmap option_fmap option_map]. f_equal.
    rewrite <- List.app_assoc. f_equal.
    change (tag :: tags) with ([tag] ++ tags).
    by rewrite filter_app, fmap_app.
Qed.

Lemma ids_for_cons tag kit kits :
  ids_for tag (kit :: kits)
  = ((λ _, kit_id kit) <$> filter (λ x, x = tag) (availableInstruments kit))
    ++ ids_for tag kits.
Proof. unfold ids_for. by rewrite bind_cons. Qed.

Lemma forEach_add_soundkit_lists kits maps maps' :
  forEach add_soundkit kits maps = Return maps' →
  ∀ t, soundkitsByInstrument maps' !! t
       = (λ ids, ids ++ ids_for t kits) <$> soundkitsByInstrument maps !! t.
Proof.
  revert maps. induction kits as [|kit kits IH]; intros maps.
  - intros [= <-] t. destruct (soundkitsByInstrument maps !! t); [|done].
    cbn. by rewrite List.app_nil_r.
  - cbn [forEach]. destruct (add_soundkit maps kit) as [maps1|] eqn:E; [|done].
    cbn [bind]. intros H t. rewrite (IH _ H).
    unfold add_soundkit in E. apply forEach_push_id_lists in E as [_ Hl].
    rewrite Hl. cbn [soundkitsByInstrument].
    destruct (soundkitsByInstrument maps !! t) as [ids|]; [|done].
    cbn [fmap option_fmap option_map]. f_equal.
    by rewrite ids_for_cons, List.app_assoc.
Qed.

Lemma buildLookupMaps_lists manifest maps tag :
  _buildLookupMaps manifest = Return maps →
  soundkitsByInstrument maps !! tag
  = if decide (tag ∈ manifest_instruments manifest)
    then Some (ids_for tag (soundkits manifest))
    else None.
Proof.
  unfold _buildLookupMaps. intros H.
  rewrite (forEach_add_soundkit_lists _ _ _ H). cbn [soundkitsByInstrument].
  rewrite foldl_insert_lookup, lookup_empty. by case_decide.
Qed.

Lemma elem_of_ids_for tag kits id :
  id ∈ ids_for tag kits ↔
  ∃ kit, kit ∈ kits ∧ kit_id kit = id ∧ tag ∈ availableInstruments kit.
Proof.
  unfold ids_for. rewrite list_elem_of_bind. split.
  - intros (kit & Hin & Hkit). apply list_elem_of_fmap in Hin as (x & -> & Hx).
    apply list_elem_of_filter in Hx as [-> Hx]. by exists kit.
  - intros (kit & Hkit & <- & Htag). exists kit. split; [|done].
    apply list_elem_of_fmap. exists tag. split; [done|].
    by apply list_elem_of_filter.
Qed.

Lemma length_ids_for tag kits :
  List.length (ids_for tag kits)
  = List.length (filter (λ y, y = tag) (kits ≫= availableInstruments)).
Proof.
  induction kits as [|kit kits IH]; [done|].
  by rewrite ids_for_cons, bind_cons, filter_app, !List.length_app, length_fmap, IH.
Qed.

End lists.

Section manager.
Context (manifestData : Manifest) (options : Options) (this : SoundkitManager).
Context (Hnew : new_SoundkitManager manifestData options = Return this).

Lemma manager_manifest : manifest this = manifestData.
Proof.
  unfold new_SoundkitManager in Hnew.
  destruct (_buildLookupMaps manifestData); [|done]. by injection Hnew as <-.
Qed.

Lemma manager_maps : _buildLookupMaps manifestData = Return (maps this).
Proof.
  unfold new_SoundkitManager in Hnew.
  destruct (_buildLookupMaps manifestData); [|done]. by injection Hnew as <-.
Qed.

Lemma manager_within_vocabulary :
  within_vocabulary (manifest_instruments manifestData) (soundkits manifestData).
Proof.
  destruct (within_vocabulary_dec (manifest_instruments manifestData)
              (soundkits manifestData)) as [Hin|Hout]; [done|].
  pose proof manager_maps as H. by rewrite buildLookupMaps_Throw in H.
Qed.

Lemma manager_map_lookup id :
  soundkitMap (maps this) !! id = kit_with_id (soundkits manifestData) id.
Proof. by destruct (manager_getSoundkit _ _ _ id Hnew) as [H _]. Qed.

Lemma manager_getSoundkitsByInstrument tag :
  getSoundkitsByInstrument this tag
  = if decide (tag ∈ manifest_instruments manifestData)
    then kit_with_id (soundkits manifestData) <$> ids_for tag (soundkits manifestData)
    else [].
Proof.
  unfold getSoundkitsByInstrument.
  rewrite (buildLookupMaps_lists _ _ tag manager_maps).
  case_decide; [|done]. apply list_fmap_ext. intros _ id _.
  apply manager_map_lookup.
Qed.

End manager.

Lemma kit_with_id_NoDup kits kit :
  NoDup (kit_id <$> kits) → kit ∈ kits → kit_with_id kits (kit_id kit) = Some kit.
Proof.
  intros Hnd Hkit.
  destruct (kit_with_id kits (kit_id kit)) as [kit'|] eqn:E.
  - destruct (kit_with_id_Some _ _ _ E) as [Hin Hid].
    f_equal. by eapply NoDup_fmap_inj_on.
  - by destruct (proj1 (kit_with_id_None kits (kit_id kit)) E kit Hkit).
Qed.

Lemma ids_for_NoDup tag kits :
  (∀ kit, kit ∈ kits → NoDup (availableInstruments kit)) →
  ids_for tag kits = kit_id <$> filter (λ kit, tag ∈ availableInstruments kit) kits.
Proof.
  induction kits as [|kit kits IH]; intros H; [done|].
  rewrite ids_for_cons, filter_cons, IH by (intros; apply H; by right).
  pose proof (length_filter_eq_NoDup tag _ (H kit (list_elem_of_here _ _))) as Hlen.
  destruct (decide (tag ∈ availableInstruments kit)).
  - destruct (filter _ (availableInstruments kit)) as [|x [|y l]]; done.
  - by destruct (filter _ (availableInstruments kit)).
Qed.

(** X12.  A manifest that the generator produced always loads: the
    constructor returns a manager, never throws, and the manager serves the
    kits of the manifest. *)
Theorem run_manifest_loads localeCompare now config samples options :
  let manifestData := run localeCompare now config samples in
  ∃ this, new_SoundkitManager manifestData options = Return this ∧
          getAllSoundkits this = soundkits manifestData ∧
          ∀ kit, kit ∈ soundkits manifestData →
                 is_Some (getSoundkit this (kit_id kit)).
Proof.
  cbv zeta.
  destruct (buildLookupMaps_Return (run localeCompare now config samples))
    as (lookup & Hmaps & _ & Hm).
  { rewrite run_instruments. apply run_within_vocabulary. }
  eexists. split; [|split].
  - unfold new_SoundkitManager. rewrite Hmaps. cbn [bind]. reflexivity.
  - done.
  - intros kit Hkit. unfold getSoundkit. cbn [maps]. rewrite Hm.
    destruct (kit_with_id _ _) eqn:E; [done|].
    by destruct (proj1 (kit_with_id_None _ (kit_id kit)) E kit Hkit).
Qed.

(** X13.  [getSoundkit] answers from the manifest: what it returns is a kit
    of the manifest with the id asked for, it returns [null] exactly when
    no kit has the id, and when ids are unique every kit is found under its
    id. *)
Theorem getSoundkit_round_trip manifestData options this id :
  new_SoundkitManager manifestData options = Return this →
  (∀ kit, getSoundkit this id = Some kit →
          kit ∈ getAllSoundkits this ∧ kit_id kit = id) ∧
  (getSoundkit this id = None ↔
   ∀ kit, kit ∈ getAllSoundkits this → kit_id kit ≠ id) ∧
  (NoDup (kit_id <$> getAllSoundkits this) →
   ∀ kit, kit ∈ getAllSoundkits this → getSoundkit this (kit_id kit) = Some kit).
Proof.
  intros Hnew. unfold getAllSoundkits, getSoundkit.
  rewrite (manager_manifest _ _ _ Hnew). split_and!.
  - intros kit. rewrite (manager_map_lookup _ _ _ Hnew). apply kit_with_id_Some.
  - rewrite (manager_map_lookup _ _ _ Hnew). apply kit_with_id_None.
  - intros Hnd kit Hkit. rewrite (manager_map_lookup _ _ _ Hnew).
    by apply kit_with_id_NoDup.
Qed.

Lemma getSoundkit_round_trip_witness :
  ∃ this,
    new_SoundkitManager (manifest_of ["kick"; "snare"] [kit_batman]) no_options
    = Return this ∧
    (getSoundkit this "tr-808" = None ↔
     ∀ kit, kit ∈ getAllSoundkits this → kit_id kit ≠ "tr-808").
Proof.
  assert (∃ this,
    new_SoundkitManager (manifest_of ["kick"; "snare"] [kit_batman]) no_options
    = Return this) as [this Hnew] by (vm_compute; eexists; reflexivity).
  exists this. split; [exact Hnew|].
  exact (proj1 (proj2 (getSoundkit_round_trip _ _ _ "tr-808" Hnew))).
Defined.

(** X14.  [getSoundkitsByInstrument] returns, for a tag of
    [manifest.instruments], one entry per kit that lists the tag, in the
    order of the manifest, each resolved through the id map, and the empty
    array for any other tag.  No entry is [undefined]; when ids are unique
    and no kit lists a tag twice, the result is exactly the kits that list
    the tag. *)
Theorem getSoundkitsByInstrument_spec manifestData options this tag :
  new_SoundkitManager manifestData options = Return this →
  let kits := soundkits manifestData in
  getSoundkitsByInstrument this tag
  = (if decide (tag ∈ manifest_instruments manifestData)
     then kit_with_id kits <$> ids_for tag kits
     else []) ∧
  (∀ entry, entry ∈ getSoundkitsByInstrument this tag →
            ∃ kit, entry = Some kit ∧ kit ∈ kits) ∧
  (NoDup (kit_id <$> kits) →
   (∀ kit, kit ∈ kits → NoDup (availableInstruments kit)) →
   getSoundkitsByInstrument this tag
   = Some <$> filter (λ kit, tag ∈ availableInstruments kit) kits).
Proof.
  intros Hnew. cbv zeta.
  pose proof (manager_getSoundkitsByInstrument _ _ _ Hnew tag) as H.
  split_and!.
  - exact H.
  - intros entry. rewrite H. case_decide; [|by intros ?%elem_of_nil].
    intros (id & -> & Hid)%list_elem_of_fmap.
    apply elem_of_ids_for in Hid as (kit & Hkit & <- & _).
    destruct (kit_with_id (soundkits manifestData) (kit_id kit)) as [kit'|] eqn:E.
    + exists kit'. split; [done|]. by destruct (kit_with_id_Some _ _ _ E).
    + by destruct (proj1 (kit_with_id_None _ (kit_id kit)) E kit Hkit).
  - intros Hnd Havail. rewrite H. case_decide as Htag.
    + rewrite ids_for_NoDup by done. rewrite <- list_fmap_compose.
      apply list_fmap_ext. intros _ kit Hkit%list_elem_of_lookup_2.
      apply list_elem_of_filter in Hkit as [_ Hkit].
      unfold compose. by apply kit_with_id_NoDup.
    + destruct (filter _ (soundkits manifestData)) as [|kit l] eqn:E; [done|].
      assert (kit ∈ filter (λ kit, tag ∈ availableInstruments kit)
                           (soundkits manifestData)) as Hin by (rewrite E; left).
      apply list_elem_of_filter in Hin as [Hin Hkit].
      destruct Htag. by eapply (manager_within_vocabulary _ _ _ Hnew).
Qed.

Lemma getSoundkitsByInstrument_spec_witness :
  ∃ this,
    new_SoundkitManager (manifest_of ["kick"; "snare"] [kit_batman]) no_options
    = Return this ∧
    getSoundkitsByInstrument this "kick" = [Some kit_batman] ∧
    getSoundkitsByInstrument this "hihat" = [].
Proof.
  assert (∃ this,
    new_SoundkitManager (manifest_of ["kick"; "snare"] [kit_batman]) no_options
    = Return this) as [this Hnew] by (vm_compute; eexists; reflexivity).
  exists this. split; [exact Hnew|]. split.
  - rewrite (proj1 (getSoundkitsByInstrument_spec _ _ _ "kick" Hnew)).
    vm_compute. reflexivity.
  - rewrite (proj1 (getSoundkitsByInstrument_spec _ _ _ "hihat" Hnew)).
    vm_compute. reflexivity.
Defined.

(** ** Strings that contain a string *)

Section includes.
#[local] Arguments String.append !_ _ / : simpl nomatch.

Lemma includes_iff s x : JSString.includes s x = true ↔ occurs_in x s.
Proof.
  unfold occurs_in. induction s as [|c s IH]; cbn [JSString.includes].
  - rewrite orb_false_r, prefix_iff. split.
    + intros [b Hb]. by exists "", b.
    + intros (a & b & H). destruct a; [|done]. by exists b.
  - rewrite orb_true_iff, prefix_iff, IH. split.
    + intros [[b Hb]|(a & b & ->)]; [by exists "", b|].
      by exists (String c a), b.
    + intros ([|c' a] & b & H).
      * left. by exists b.
      * right. exists a, b. cbn [String.append] in H. by injection H.
Qed.

Lemma includes_empty s : JSString.includes s "" = true.
Proof. apply includes_iff. by exists "", s. Qed.

Lemma includes_refl s : JSString.includes s s = true.
Proof. apply includes_iff. exists "", "". by rewrite app_nil_r. Qed.

End includes.

Lemma find_spec {A} (p : A → bool) (l : list A) :
  match JSArray.find p l with
  | Some x => ∃ before after, l = before ++ x :: after ∧ p x = true ∧
                              ∀ y, y ∈ before → p y = false
  | None => ∀ y, y ∈ l → p y = false
  end.
Proof.
  unfold JSArray.find. induction l as [|x l IH]; cbn [List.find].
  - by intros y ?%elem_of_nil.
  - destruct (p x) eqn:Hx.
    + exists [], l. split_and!; [done..|]. by intros y ?%elem_of_nil.
    + destruct (List.find p l) as [z|].
      * destruct IH as (before & after & -> & Hz & Hb).
        exists (x :: before), after. split_and!; [done..|].
        intros y [->|Hy]%elem_of_cons; auto.
      * intros y [->|Hy]%elem_of_cons; auto.
Qed.

(** X15.  [getSoundkitByName] returns the first kit of the manifest whose
    name equals the query up to letter case, and [null] exactly when there
    is none; the letter case of the query does not matter, and the name of
    a kit of the manifest always finds a kit. *)
Theorem getSoundkitByName_spec this name :
  let same_name kit := JS.toLowerCase (kit_name kit) = JS.toLowerCase name in
  (getSoundkitByName this name = None ↔
   ∀ kit, kit ∈ getAllSoundkits this → ¬ same_name kit) ∧
  (∀ kit, getSoundkitByName this name = Some kit →
     ∃ before after, getAllSoundkits this = before ++ kit :: after ∧
       same_name kit ∧ ∀ other, other ∈ before → ¬ same_name other) ∧
  getSoundkitByName this (JS.toLowerCase name) = getSoundkitByName this name ∧
  (∀ kit, kit ∈ getAllSoundkits this →
          is_Some (getSoundkitByName this (kit_name kit))).
Proof.
  cbv zeta. unfold getSoundkitByName, getAllSoundkits.
  split_and!.
  - pose proof (find_spec
      (λ kit, bool_decide (JS.toLowerCase (kit_name kit) = JS.toLowerCase name))
      (soundkits (manifest this))) as H.
    destruct (JSArray.find _ _) as [kit|].
    + destruct H as (before & after & Hl & Hk%bool_decide_eq_true & _).
      split; [done|]. intros Hall. destruct (Hall kit); [|done].
      rewrite Hl, elem_of_app. right. left.
    + split; [|done]. intros _ kit Hkit.
      by apply (bool_decide_eq_false_1 _), H.
  - intros kit Hfind.
    pose proof (find_spec
      (λ kit, bool_decide (JS.toLowerCase (kit_name kit) = JS.toLowerCase name))
      (soundkits (manifest this))) as H.
    rewrite Hfind in H. destruct H as (before & after & Hl & Hk%bool_decide_eq_true & Hb).
    exists before, after. split_and!; [done..|].
    intros other Hother. by apply (bool_decide_eq_false_1 _), Hb.
  - by rewrite toLowerCase_idempotent.
  - intros kit Hkit.
    pose proof (find_spec
      (λ k, bool_decide (JS.toLowerCase (kit_name k) = JS.toLowerCase (kit_name kit)))
      (soundkits (manifest this))) as H.
    destruct (JSArray.find _ _) as [kit'|]; [done|].
    specialize (H kit Hkit). by apply bool_decide_eq_false in H.
Qed.

(** X16.  [searchSoundkits] keeps, in the order of the manifest, exactly the
    kits whose lower-cased name contains the lower-cased query; the empty
    query keeps every kit, and the name of a kit finds that kit. *)
Theorem searchSoundkits_spec this query :
  (∀ kit, kit ∈ searchSoundkits this query ↔
          kit ∈ getAllSoundkits this ∧
          occurs_in (JS.toLowerCase query) (JS.toLowerCase (kit_name kit))) ∧
  searchSoundkits this query `sublist_of` getAllSoundkits this ∧
  searchSoundkits this "" = getAllSoundkits this ∧
  (∀ kit, kit ∈ getAllSoundkits this → kit ∈ searchSoundkits this (kit_name kit)).
Proof.
  unfold searchSoundkits, getAllSoundkits. split_and!.
  - intros kit. rewrite list_elem_of_filter, includes_iff. tauto.
  - apply sublist_filter.
  - cbn [JS.toLowerCase]. induction (soundkits (manifest this)) as [|kit l IH];
      [done|].
    rewrite filter_cons, decide_True by apply includes_empty. by rewrite IH.
  - intros kit Hkit. apply list_elem_of_filter. split; [|done].
    apply includes_refl.
Qed.

(** ** The queries on a generated manifest *)

Section generated.
Context (localeCompare : string → string → comparison) (now : string).
Context (config : Config) (samples : SamplesDir).
Context (options : Options) (this : SoundkitManager).
Context (Hnew : new_SoundkitManager (run localeCompare now config samples) options
                = Return this).

Lemma generated_getSoundkit id kit :
  getSoundkit this id = Some kit →
  kit ∈ soundkits (run localeCompare now config samples) ∧ kit_id kit = id.
Proof.
  unfold getSoundkit. rewrite (manager_map_lookup _ _ _ Hnew).
  apply kit_with_id_Some.
Qed.

Lemma generated_path id kit tag :
  getSoundkit this id = Some kit →
  tag ∈ availableInstruments kit ↔
  ∃ p, kit_instruments kit !! tag = Some p ∧ p ≠ "".
Proof.
  intros [Hkit _]%generated_getSoundkit.
  pose proof (proj1 (elem_of_soundkits _ _ _ _ _) Hkit) as Hscan.
  rewrite <- (scanned_kit_instruments _ _ _ _ Hscan), elem_of_dom. split.
  - intros [p Hp]. exists p. split; [done|]. by eapply run_paths_nonempty.
  - intros (p & Hp & _). by exists p.
Qed.

Lemma generated_getSampleUrl id kit tag :
  getSoundkit this id = Some kit →
  is_Some (getSampleUrl this id tag) ↔ tag ∈ availableInstruments kit.
Proof.
  intros Hkit. rewrite (generated_path _ _ tag Hkit).
  unfold getSampleUrl. rewrite Hkit.
  destruct (kit_instruments kit !! tag) as [p|].
  - destruct (decide (p = "")) as [->|Hp].
    + split; [by intros [? ?]|]. by intros (? & [= <-] & ?).
    + split; [by exists p|]. intros _. by destruct (decide (mgr_baseUrl this = "")).
  - split; [by intros [? ?]|]. by intros (? & ? & ?).
Qed.

End generated.



Lemma foldl_insert_with_lookup {V} (f : string → V) (keys : list string)
    (m : gmap string V) (x : string) :
  foldl (λ m key, <[key := f key]> m) m keys !! x
  = if decide (x ∈ keys) then Some (f x) else m !! x.
Proof.
  revert m. induction keys as [|key keys IH]; intros m; [done|].
  cbn [foldl]. rewrite IH. destruct (decide (x = key)) as [->|Hne].
  - rewrite lookup_insert_eq, (decide_True (P := key ∈ key :: keys)) by left.
    by case_decide.
  - rewrite lookup_insert_ne by done. destruct (decide (x ∈ keys)).
    + by rewrite decide_True by (by right).
    + rewrite decide_False; [done|]. by intros [?|?]%elem_of_cons.
Qed.

Lemma getSoundkitUrls_lookup this id soundkit tag :
  getSoundkit this id = Some soundkit →
  ∃ urls, getSoundkitUrls this id = Some urls ∧
    urls !! tag = (λ _, getSampleUrl this id tag) <$> (kit_instruments soundkit !! tag).
Proof.
  intros Hkit. unfold getSoundkitUrls. rewrite Hkit. eexists. split; [done|].
  rewrite (foldl_insert_with_lookup (getSampleUrl this id)), lookup_empty.
  unfold JSArray.keys. destruct (kit_instruments soundkit !! tag) as [p|] eqn:Hp.
  - rewrite decide_True; [done|].
    apply list_elem_of_fmap. exists (tag, p). split; [done|].
    by apply elem_of_map_to_list.
  - rewrite decide_False; [done|].
    intros ([t p] & -> & Hin%elem_of_map_to_list)%list_elem_of_fmap.
    cbn [fst] in Hp. congruence.
Qed.





(** ** The catalog page *)

Section catalog_properties.
Context (localeCompare : string → string → comparison).

Lemma sort_comparator_total sortBy compareFn :
  (∀ a b, localeCompare a b = Gt → localeCompare b a ≠ Gt) →
  sort_comparator localeCompare sortBy = Some compareFn →
  ∀ x y, compareFn x y = Gt → compareFn y x ≠ Gt.
Proof.
  intros Htotal. unfold sort_comparator.
  repeat case_decide; intros [= <-] x y; try done.
  - apply Htotal.
  - apply Htotal.
  - apply (by_completeness_total false).
  - apply (by_completeness_total true).
Qed.

Lemma sortSoundkits_Permutation sortBy state :
  filteredSoundkits (sortSoundkits localeCompare sortBy state)
  ≡ₚ filteredSoundkits state.
Proof.
  unfold sortSoundkits. cbn [filteredSoundkits set_filteredSoundkits].
  destruct (sort_comparator _ _); [apply js_sort_Permutation|done].
Qed.

Lemma sortSoundkits_sorted sortBy state :
  (∀ a b, localeCompare a b = Gt → localeCompare b a ≠ Gt) →
  sorted_for localeCompare sortBy
    (filteredSoundkits (sortSoundkits localeCompare sortBy state)).
Proof.
  intros Htotal. unfold sorted_for, sortSoundkits.
  cbn [filteredSoundkits set_filteredSoundkits].
  destruct (sort_comparator _ _) as [compareFn|] eqn:E; [|done].
  apply Sorted_js_sort. by eapply sort_comparator_total.
Qed.

Lemma matches_query_iff query kit :
  matches_query query kit = true ↔
  occurs_in query (JS.toLowerCase (kit_name kit))
  ∨ ∃ inst, inst ∈ availableInstruments kit ∧ occurs_in query inst.
Proof.
  unfold matches_query, JSArray.some.
  rewrite orb_true_iff, includes_iff, existsb_exists.
  apply or_iff_compat_l. split.
  - intros (inst & Hin%list_elem_of_In & H%includes_iff). eauto.
  - intros (inst & Hin%list_elem_of_In & H%includes_iff). eauto.
Qed.

Lemma passes_visible state kit :
  passes state kit ↔ visible (searchQuery state) (currentFilter state) kit.
Proof. unfold passes, visible. by rewrite matches_query_iff. Qed.

Lemma filter_all {A} (P : A → Prop) `{!∀ x, Decision (P x)} (l : list A) :
  (∀ x, x ∈ l → P x) → filter P l = l.
Proof.
  induction l as [|x l IH]; intros Hall; [done|].
  rewrite filter_cons, decide_True by (apply Hall; left).
  by rewrite IH by (intros; apply Hall; by right).
Qed.

Lemma search_filter state :
  (if decide (searchQuery state = "") then allSoundkits state
   else filter (λ kit, matches_query (JS.toLowerCase (searchQuery state)) kit = true)
               (allSoundkits state))
  = filter (λ kit, searchQuery state = ""
                   ∨ matches_query (JS.toLowerCase (searchQuery state)) kit = true)
           (allSoundkits state).
Proof.
  case_decide as Hq.
  - symmetry. apply filter_all. intros kit _. by left.
  - apply list_filter_iff. intros kit. split; [by right|]. by intros [?|?].
Qed.

Lemma completeness_filter state (l : list Kit) :
  (if decide (currentFilter state = "complete")
   then filter (λ kit, completeness kit = Qc_of_Z 100) l
   else if decide (currentFilter state = "incomplete")
   then filter (λ kit, (completeness kit < Qc_of_Z 100)%Qc) l
   else l)
  = filter (λ kit, (currentFilter state = "complete" → completeness kit = Qc_of_Z 100) ∧
                   (currentFilter state = "incomplete" →
                    (completeness kit < Qc_of_Z 100)%Qc)) l.
Proof.
  destruct (decide (currentFilter state = "complete")) as [Hc|Hc].
  - apply list_filter_iff. intros kit. split.
    + intros H. split; [done|]. rewrite Hc. by intros [=].
    + intros [H _]. by apply H.
  - destruct (decide (currentFilter state = "incomplete")) as [Hi|Hi].
    + apply list_filter_iff. intros kit. split.
      * intros H. by split.
      * intros [_ H]. by apply H.
    + symmetry. apply filter_all. intros kit _. by split.
Qed.

Lemma filterSoundkits_Permutation state :
  filteredSoundkits (filterSoundkits localeCompare state)
  ≡ₚ filter (passes state) (allSoundkits state).
Proof.
  unfold filterSoundkits. rewrite sortSoundkits_Permutation.
  cbn [filteredSoundkits set_filteredSoundkits].
  rewrite completeness_filter, search_filter, list_filter_filter.
  erewrite list_filter_iff; [done|]. intros kit. unfold passes. tauto.
Qed.

Lemma filterSoundkits_fields state :
  let state' := filterSoundkits localeCompare state in
  allSoundkits state' = allSoundkits state ∧
  currentSort state' = currentSort state ∧
  currentFilter state' = currentFilter state ∧
  searchQuery state' = searchQuery state.
Proof. done. Qed.

Lemma filterSoundkits_shows this state :
  (∀ a b, localeCompare a b = Gt → localeCompare b a ≠ Gt) →
  allSoundkits state = getAllSoundkits this →
  shows_matching localeCompare this (filterSoundkits localeCompare state).
Proof.
  intros Htotal Hall. split_and!.
  - done.
  - by rewrite filterSoundkits_Permutation.
  - apply sortSoundkits_sorted, Htotal.
Qed.

Lemma initializeCatalog_shows this :
  (∀ a b, localeCompare a b = Gt → localeCompare b a ≠ Gt) →
  shows_matching localeCompare this
    (initializeCatalog localeCompare this initial_state).
Proof.
  intros Htotal. split_and!.
  - done.
  - unfold initializeCatalog. rewrite sortSoundkits_Permutation.
    cbn [filteredSoundkits allSoundkits sortSoundkits set_filteredSoundkits].
    rewrite filter_all; [done|].
    intros kit _. unfold passes. cbn. split_and!; [by left|done|done].
  - apply sortSoundkits_sorted, Htotal.
Qed.

Lemma handle_shows this event state :
  (∀ a b, localeCompare a b = Gt → localeCompare b a ≠ Gt) →
  shows_matching localeCompare this state →
  shows_matching localeCompare this (handle localeCompare event state).
Proof.
  intros Htotal (Hall & Hperm & Hsorted).
  destruct event as [value|value|value|]; cbn [handle].
  - by apply filterSoundkits_shows.
  - split_and!.
    + done.
    + rewrite sortSoundkits_Permutation.
      cbn [filteredSoundkits allSoundkits set_currentSort sortSoundkits
           set_filteredSoundkits].
      by rewrite Hperm.
    + apply sortSoundkits_sorted, Htotal.
  - by apply filterSoundkits_shows.
  - by apply filterSoundkits_shows.
Qed.

Lemma after_events_shows this events :
  (∀ a b, localeCompare a b = Gt → localeCompare b a ≠ Gt) →
  shows_matching localeCompare this (after_events localeCompare this events).
Proof.
  intros Htotal. unfold after_events.
  induction events as [|event events IH] using rev_ind.
  - by apply initializeCatalog_shows.
  - rewrite foldl_snoc. by apply handle_shows.
Qed.

End catalog_properties.

(** X20.  [sortSoundkits] rearranges the filtered kits and touches nothing
    else: the result is a permutation of the filtered kits, ordered by
    completeness or by name as the key asks (by name provided the collation
    never puts two names each after the other); kits of equal completeness
    keep their order under the completeness keys; and an unknown key leaves
    the list as it is. *)
Theorem sortSoundkits_spec localeCompare sortBy state :
  let state' := sortSoundkits localeCompare sortBy state in
  let kits := filteredSoundkits state' in
  kits ≡ₚ filteredSoundkits state ∧
  allSoundkits state' = allSoundkits state ∧
  (sortBy = "completeness-desc" →
   Sorted (λ a b, (completeness b ≤ completeness a)%Qc) kits ∧
   ∀ c, filter (λ kit, completeness kit = c) kits
        = filter (λ kit, completeness kit = c) (filteredSoundkits state)) ∧
  (sortBy = "completeness-asc" →
   Sorted (λ a b, (completeness a ≤ completeness b)%Qc) kits ∧
   ∀ c, filter (λ kit, completeness kit = c) kits
        = filter (λ kit, completeness kit = c) (filteredSoundkits state)) ∧
  ((∀ a b, localeCompare a b = Gt → localeCompare b a ≠ Gt) →
   (sortBy = "name-asc" →
    Sorted (λ a b, localeCompare (kit_name a) (kit_name b) ≠ Gt) kits) ∧
   (sortBy = "name-desc" →
    Sorted (λ a b, localeCompare (kit_name b) (kit_name a) ≠ Gt) kits)) ∧
  (sortBy ∉ ["name-asc"; "name-desc"; "completeness-desc"; "completeness-asc"] →
   kits = filteredSoundkits state).
Proof.
  cbv zeta. split_and!.
  - apply sortSoundkits_Permutation.
  - done.
  - intros ->. split.
    + apply (Sorted_by_completeness false).
    + intros c. apply (js_sort_stable (by_completeness false)).
      intros y z. apply by_completeness_tie.
  - intros ->. split.
    + apply (Sorted_by_completeness true).
    + intros c. apply (js_sort_stable (by_completeness true)).
      intros y z. apply by_completeness_tie.
  - intros Htotal. split; intros ->.
    + pose proof (sortSoundkits_sorted localeCompare "name-asc" state Htotal) as H.
      exact H.
    + pose proof (sortSoundkits_sorted localeCompare "name-desc" state Htotal) as H.
      exact H.
  - intros Hkey. unfold sortSoundkits, sort_comparator.
    repeat case_decide; subst; try done; destruct Hkey;
      rewrite !elem_of_cons; tauto.
Qed.

(** X21.  Whatever the visitor types and selects, the catalog shows exactly
    the kits of the manager that match the current search text and the
    current completeness filter, each as often as the manifest lists it,
    in the order of the current sort key; the manager's list of kits is
    never changed. *)
Theorem catalog_shows_matching_kits localeCompare this events :
  (∀ a b, localeCompare a b = Gt → localeCompare b a ≠ Gt) →
  let state := after_events localeCompare this events in
  allSoundkits state = getAllSoundkits this ∧
  filteredSoundkits state ≡ₚ filter (passes state) (getAllSoundkits this) ∧
  (∀ kit, kit ∈ filteredSoundkits state ↔
          kit ∈ getAllSoundkits this ∧
          visible (searchQuery state) (currentFilter state) kit) ∧
  sorted_for localeCompare (currentSort state) (filteredSoundkits state).
Proof.
  intros Htotal. cbv zeta.
  destruct (after_events_shows localeCompare this events Htotal)
    as (Hall & Hperm & Hsorted).
  rewrite Hall in Hperm. split_and!; [done..| |done].
  intros kit. rewrite Hperm, list_elem_of_filter, passes_visible. tauto.
Qed.

Lemma catalog_shows_matching_kits_witness :
  (∀ a b, default_compare a b = Gt → default_compare b a ≠ Gt) ∧
  ∃ this,
    new_SoundkitManager (manifest_of ["kick"; "snare"] [kit_one "X"; kit_batman])
                        no_options
    = Return this ∧
    ∀ kit,
      kit ∈ filteredSoundkits
              (after_events default_compare this
                 [SearchInput "BAT"; SortChange "completeness-desc"]) ↔
      kit ∈ getAllSoundkits this ∧ visible "BAT" "all" kit.
Proof.
  split; [exact default_compare_total|].
  assert (∃ this,
    new_SoundkitManager (manifest_of ["kick"; "snare"] [kit_one "X"; kit_batman])
                        no_options
    = Return this) as [this Hnew] by (vm_compute; eexists; reflexivity).
  exists this. split; [exact Hnew|].
  exact (proj1 (proj2 (proj2
    (catalog_shows_matching_kits default_compare this
       [SearchInput "BAT"; SortChange "completeness-desc"]
       default_compare_total)))).
Defined.

(** ** [loadSoundkit] *)

Section load.
Context {AudioBuffer : Type} (download : option string → option AudioBuffer).

Lemma foldl_settle_lookup (entries : list (string * option string))
    (buffers : gmap string (option AudioBuffer)) tag :
  NoDup entries.*1 →
  (∀ url, (tag, url) ∈ entries →
          foldl (settle download) buffers entries !! tag = Some (download url)) ∧
  (tag ∉ entries.*1 →
   foldl (settle download) buffers entries !! tag = buffers !! tag).
Proof.
  revert buffers. induction entries as [|[t u] entries IH]; intros buffers Hnd.
  - split; [by intros url ?%elem_of_nil|done].
  - rewrite fmap_cons in Hnd. apply NoDup_cons in Hnd as [Hnew Hnd].
    cbn [foldl]. destruct (IH (settle download buffers (t, u)) Hnd) as [IH1 IH2].
    split.
    + intros url [[= -> ->]|Hin]%elem_of_cons; [|by apply IH1].
      rewrite IH2 by done. unfold settle. cbn [fst snd].
      by rewrite lookup_insert_eq.
    + rewrite fmap_cons. intros [Hne Hout]%not_elem_of_cons.
      rewrite IH2 by done. unfold settle. cbn [fst snd] in *.
      by rewrite lookup_insert_ne.
Qed.

Lemma settled_lookup (urls : gmap string (option string)) entries tag :
  entries ≡ₚ map_to_list urls →
  foldl (settle download) ∅ entries !! tag = download <$> urls !! tag.
Proof.
  intros Hperm.
  assert (NoDup entries.*1) as Hnd.
  { rewrite Hperm. apply NoDup_fst_map_to_list. }
  destruct (foldl_settle_lookup entries ∅ tag Hnd) as [H1 H2].
  destruct (urls !! tag) as [url|] eqn:E.
  - apply H1. rewrite Hperm. by apply elem_of_map_to_list.
  - rewrite H2; [done|].
    intros ([t u] & -> & Hin)%list_elem_of_fmap.
    rewrite Hperm in Hin. apply elem_of_map_to_list in Hin.
    cbn [fst] in E. congruence.
Qed.

End load.


Example manager_batman_constructed :
  new_SoundkitManager (manifest_of ["kick"; "snare"] [kit_batman]) no_options
  = Return manager_batman.
Proof. vm_compute. reflexivity. Qed.

